(** * FitnessApp: model resolver, fallback invokers and the image cache

    A shallow embedding of three mechanisms of the application:

    - [getModelsToTry] of [src/app/api/utils/get-available-models.ts],
      which orders the model identifiers to try;
    - the "try each model until one works" loops of the request handlers
      [api/generate], [api/describe] and [api/tts], with the error
      responses they build once the loop is over;
    - the localStorage cache of [src/hooks/useExerciseImage.ts]
      ([getCachedImage], [setCachedImage], [clearCachedImage]).

    Around them: the model listing [getAvailableModels], the answers of
    [api/analyze] and of the outer [catch] of [api/generate], the choice
    of the picture in [api/image], and [fetchImage] of the hook
    [useExerciseImage].

    JavaScript strings are modelled as [string]; HTTP statuses and
    millisecond timestamps as [Z]; [localStorage] as a [gmap] from keys
    to the stored texts. *)

From Stdlib Require Import ZArith Bool List Ascii String DecimalString Sorted.
From stdpp Require Import base option list gmap strings.

Import ListNotations.
Local Open Scope string_scope.
Local Open Scope Z_scope.

(** ** JavaScript string primitives *)

Module JsString.

(** [s.startsWith(p)] *)
Definition startsWith (s p : string) : bool := String.prefix p s.

(** [s.includes(sub)]: [sub] starts at some position of [s]. *)
Fixpoint includes (s sub : string) : bool :=
  String.prefix sub s ||
  match s with
  | EmptyString => false
  | String _ s' => includes s' sub
  end.

(** [l.join(sep)] on an array of strings. *)
Definition join (sep : string) (l : list string) : string :=
  String.concat sep l.

(** The line feed and the double quote, for the texts that contain them. *)
Definition nl : string := String "010"%char EmptyString.
Definition dq : string := String "034"%char EmptyString.

(** [s || d] on strings: the empty string is falsy. *)
Definition or_else (s d : string) : string :=
  if String.eqb s EmptyString then d else s.

End JsString.

Import JsString.

(** ** The model resolver ([get-available-models.ts]) *)

Module Resolver.

(** The predicate of the [stableModels] filter. *)
Definition is_stable (m : string) : bool :=
  negb (includes m "preview") &&
  negb (includes m "experimental") &&
  negb (includes m "exp") &&
  negb (includes m "beta").

Definition has_version (m : string) : bool :=
  includes m "2.5" || includes m "2.0" || includes m "1.5" || includes m "1.0".

Definition is_geminiFlash (m : string) : bool :=
  includes m "flash" && startsWith m "gemini" && has_version m.

Definition is_geminiPro (m : string) : bool :=
  includes m "pro" && negb (includes m "flash") &&
  startsWith m "gemini" && has_version m.

Definition is_otherGemini (m : string) : bool :=
  startsWith m "gemini" && negb (includes m "flash") && negb (includes m "pro").

Definition is_gemma (m : string) : bool := startsWith m "gemma".

Definition is_otherStable (m : string) : bool :=
  negb (startsWith m "gemini") && negb (startsWith m "gemma").

(** The predicate of the [previewModels] filter. *)
Definition is_preview (m : string) : bool :=
  includes m "preview" || includes m "experimental" || includes m "exp".

(** The hard-coded list returned when the listing gave nothing. *)
Definition fallbackModels : list string :=
  [ "gemini-1.5-flash";
    "gemini-1.5-flash-8b";
    "gemini-1.5-flash-latest";
    "gemini-1.5-pro";
    "gemini-1.0-pro";
    "gemini-pro" ].

(** [getModelsToTry]; [availableModels] is the value of
    [await getAvailableModels(apiKey)], the identifiers the provider
    lists (empty when the listing failed). *)
Definition getModelsToTry (availableModels : list string) : list string :=
  if (0 <? Z.of_nat (length availableModels)) then
    let stableModels := List.filter is_stable availableModels in
    let geminiFlash := List.filter is_geminiFlash stableModels in
    let geminiPro := List.filter is_geminiPro stableModels in
    let otherGemini := List.filter is_otherGemini stableModels in
    let gemmaModels := List.filter is_gemma stableModels in
    let otherStable := List.filter is_otherStable stableModels in
    let previewModels := List.filter is_preview availableModels in
    geminiFlash ++ geminiPro ++ otherGemini ++ otherStable ++
    gemmaModels ++ previewModels
  else fallbackModels.

End Resolver.

(** ** The fallback loops of the request handlers *)

Module Invoker.

(** The value a provider call throws. [status] is [error.status] for the
    Gemini client and [error.response?.status] for axios ([None] when
    undefined); [message] is [error.message]. *)
Record ApiError : Type := mkError { status : option Z; message : string }.

(** [lastError?.status === code], with [lastError] possibly [null]. *)
Definition status_is (e : option ApiError) (code : Z) : bool :=
  match e with
  | Some {| status := Some s |} => s =? code
  | _ => false
  end.

(** What one awaited provider call does: it returns a value or throws. *)
Inductive Outcome (R : Type) : Type :=
| Success (r : R)
| Failure (e : ApiError).
Arguments Success {R} r.
Arguments Failure {R} e.

(** How a loop leaves its [catch] block on an error it does not retry. *)
Inductive OnFatal : Type := Break | Throw.

(** What distinguishes the loops of the handlers: the test guarding
    [continue], and the statement after it. *)
Record Policy : Type := mkPolicy {
  retryable : ApiError -> bool;
  on_fatal : OnFatal
}.

(** [api/generate]: [continue] on 503, 404 or 400, otherwise [throw error]. *)
Definition generate_policy : Policy :=
  {| retryable e :=
       status_is (Some e) 503 || status_is (Some e) 404 || status_is (Some e) 400;
     on_fatal := Throw |}.

(** [api/describe]: [continue] on 503, 429, 404 or 400, otherwise [break]. *)
Definition describe_policy : Policy :=
  {| retryable e :=
       status_is (Some e) 503 || status_is (Some e) 429 ||
       status_is (Some e) 404 || status_is (Some e) 400;
     on_fatal := Break |}.

(** [api/tts]: [break] on 401, [continue] on 404, and [continue] on
    anything else. *)
Definition tts_policy : Policy :=
  {| retryable e :=
       if status_is (Some e) 401 then false
       else if status_is (Some e) 404 then true
       else true;
     on_fatal := Break |}.

(** The identifiers [api/tts] tries. *)
Definition tts_modelsToTry : list string :=
  [ "eleven_turbo_v2_5"; "eleven_turbo_v2";
    "eleven_multilingual_v2"; "eleven_monolingual_v1" ].

(** How the [for ... of] loop is left. [attempts] lists, in order, the
    identifiers the provider was called with. *)
Inductive LoopExit (R : Type) : Type :=
| Finished (result : option R) (lastError : option ApiError)
           (attempts : list string)
| Threw (error : ApiError) (attempts : list string).
Arguments Finished {R} result lastError attempts.
Arguments Threw {R} error attempts.

(** The loop [for (const modelName of modelNames) { try ... catch ... }].
    [call k m] is the outcome of the provider call made with identifier
    [m] after [k] earlier calls; [lastError] and [attempts] carry the
    loop's variables. *)
Fixpoint tryModels {R : Type} (pol : Policy) (call : nat -> string -> Outcome R)
    (k : nat) (models : list string) (lastError : option ApiError)
    (attempts : list string) : LoopExit R :=
  match models with
  | [] => Finished None lastError attempts
  | m :: rest =>
      match call k m with
      | Success r => Finished (Some r) lastError (attempts ++ [m])
      | Failure e =>
          if retryable pol e
          then tryModels pol call (S k) rest (Some e) (attempts ++ [m])
          else match on_fatal pol with
               | Break => Finished None (Some e) (attempts ++ [m])
               | Throw => Threw e (attempts ++ [m])
               end
      end
  end.

(** The loop from its initial state ([lastError = null]). *)
Definition invoke {R : Type} (pol : Policy) (call : nat -> string -> Outcome R)
    (models : list string) : LoopExit R :=
  tryModels pol call 0 models None [].

Definition attempts_of {R : Type} (x : LoopExit R) : list string :=
  match x with
  | Finished _ _ a => a
  | Threw _ a => a
  end.

(** The message of the [Error] that [api/generate] throws when the loop
    ended without a result. *)
Definition generate_terminal_message (modelNames : list string)
    (lastError : option ApiError) : string :=
  if status_is lastError 503 then
    "All models are currently overloaded. Please try again in a few moments. Tried: "
      ++ join ", " modelNames
  else if status_is lastError 404 then
    "No available models found. Tried: " ++ join ", " modelNames ++ "." ++ nl ++ nl ++
    "This usually means the Generative AI API is not enabled in your Google Cloud project."
      ++ nl ++ nl ++
    "To fix:" ++ nl ++
    "1. Go to: https://console.cloud.google.com/apis/library/generativelanguage.googleapis.com"
      ++ nl ++
    "2. Select your project (projects/599646167290)" ++ nl ++
    "3. Click " ++ dq ++ "Enable" ++ dq ++ " to enable the Generative AI API" ++ nl ++
    "4. Wait a few minutes and try again" ++ nl ++ nl ++
    "Or check available models at: http://localhost:3000/api/list-models"
  else if status_is lastError 401 then
    "Invalid API key. Please check your GEMINI_API_KEY."
  else if status_is lastError 429 then
    "Rate limit exceeded. Please try again later."
  else
    "API Error: " ++
    or_else (match lastError with Some e => message e | None => EmptyString end)
            "Unknown error".

(** What the [try] block of [api/generate] has after the loop and the
    [if (!result)] block: the result, or the thrown value (the provider's
    error, or a fresh [Error], which has no status). *)
Definition generate_invoke {R : Type} (call : nat -> string -> Outcome R)
    (modelNames : list string) : R + ApiError :=
  match invoke generate_policy call modelNames with
  | Threw e _ => inr e
  | Finished (Some r) _ _ => inl r
  | Finished None lastError _ =>
      inr {| status := None;
             message := generate_terminal_message modelNames lastError |}
  end.

(** A JSON error response: the HTTP status and the [error] field. *)
Record Response : Type := mkResponse { code : Z; error : string }.

(** The response [api/describe] returns when the loop ended without a
    result. *)
Definition describe_terminal_response (modelNames : list string)
    (lastError : option ApiError) : Response :=
  if status_is lastError 429 then
    {| code := 429;
       error := "Rate limit exceeded. All models are currently rate-limited. Please try again in a few minutes." |}
  else if status_is lastError 503 then
    {| code := 503;
       error := "All models are currently overloaded. Please try again in a few moments. Tried: "
                  ++ join ", " modelNames |}
  else if status_is lastError 404 then
    {| code := 404;
       error := "No available models found. Tried: " ++ join ", " modelNames ++
                ". Your API key may not have access to these models." |}
  else
    {| code := 500;
       error := or_else (match lastError with Some e => message e | None => EmptyString end)
                        "Unknown error occurred" |}.

(** The outer [catch] of [api/describe], for a value thrown in its [try]
    block. *)
Definition describe_catch (e : ApiError) : Response :=
  if includes (message e) "API key" || status_is (Some e) 401 then
    {| code := 401; error := "Authentication failed: Invalid API key" |}
  else if status_is (Some e) 429 then
    {| code := 429; error := "Rate limit exceeded: Too many requests" |}
  else
    {| code := 500; error := "Failed to generate description" |}.

(** [api/describe] after the loop: the result, or the error response. *)
Definition describe_invoke {R : Type} (call : nat -> string -> Outcome R)
    (modelNames : list string) : R + Response :=
  match invoke describe_policy call modelNames with
  | Finished (Some r) _ _ => inl r
  | Finished None lastError _ => inr (describe_terminal_response modelNames lastError)
  | Threw e _ => inr (describe_catch e)
  end.

(** What [api/tts] does after its loop. *)
Inductive TtsExit (R : Type) : Type :=
| TtsResponse (r : R)
| TtsUnauthorized (resp : Response)
| TtsThrow (e : ApiError).
Arguments TtsResponse {R} r.
Arguments TtsUnauthorized {R} resp.
Arguments TtsThrow {R} e.

Definition tts_invoke {R : Type} (call : nat -> string -> Outcome R)
    (modelsToTry : list string) : TtsExit R :=
  match invoke tts_policy call modelsToTry with
  | Finished (Some r) _ _ => TtsResponse r
  | Finished None lastError _ =>
      if status_is lastError 401 then
        TtsUnauthorized
          {| code := 401;
             error := "Authentication failed: Invalid ElevenLabs API key" |}
      else
        match lastError with
        | Some e => TtsThrow e
        | None =>
            TtsThrow {| status := None;
                        message := "Failed to generate speech with all models" |}
        end
  | Threw e _ => TtsThrow e
  end.

(** The errors of a run of calls that all fail and are all retried:
    [Some errs] when the calls numbered [k], [k+1], ... made with the
    identifiers of [ms] each throw an error for which the loop continues;
    [None] when one of them succeeds or throws an error the loop does not
    retry. *)
Fixpoint retried_errors {R : Type} (pol : Policy)
    (call : nat -> string -> Outcome R) (k : nat) (ms : list string)
    : option (list ApiError) :=
  match ms with
  | [] => Some []
  | m :: rest =>
      match call k m with
      | Failure e =>
          if retryable pol e then
            match retried_errors pol call (S k) rest with
            | Some es => Some (e :: es)
            | None => None
            end
          else None
      | Success _ => None
      end
  end.

(** The value of [lastError] after the errors [errs] were assigned to it
    in turn, starting from [init]. *)
Definition last_error (errs : list ApiError) (init : option ApiError)
    : option ApiError :=
  match last errs with
  | Some e => Some e
  | None => init
  end.

(** The retry rule in the words of the specification: HTTP 503, 404 and
    400 are retried, every other status is fatal. *)
Definition spec_retryable (e : ApiError) : bool :=
  status_is (Some e) 503 || status_is (Some e) 404 || status_is (Some e) 400.

End Invoker.

(** ** The image cache of [useExerciseImage.ts] *)

Module ImageCache.

Definition CACHE_PREFIX : string := "exercise_image_".
Definition CACHE_VERSION : string := "v2".
Definition CACHE_EXPIRY_DAYS : Z := 7.
Definition CACHE_EXPIRY_MS : Z := CACHE_EXPIRY_DAYS * 24 * 60 * 60 * 1000.

(** A cache entry as the code reads it. [JSON.parse] does not check the
    [CachedImage] interface, so every property may be missing ([None] is
    [undefined]). [timestamp] is the number subtracted from [Date.now()],
    [None] when the subtraction gives [NaN]; timestamps are integers, as
    [Date.now()] produces them. *)
Record CachedImage : Type := mkCachedImage {
  url : option string;
  timestamp : option Z;
  version : option string
}.

(** What [JSON.parse(cached)] followed by property reads can do. *)
Inductive Parsed : Type :=
| SyntaxError                 (* [JSON.parse] throws *)
| JsonNull                    (* the value [null]: reading a property throws *)
| JsonValue (data : CachedImage).

(** [localStorage]: keys to stored texts. *)
Abbreviation Storage := (gmap string string).

(** The browser facilities the cache calls. [window_defined] is
    [typeof window !== "undefined"]; [quota_ok k v ls] tells whether
    [localStorage.setItem(k, v)] succeeds on [ls] instead of throwing. *)
Class Browser : Type := mkBrowser {
  window_defined : bool;
  JSON_parse : string -> Parsed;
  JSON_stringify : CachedImage -> string;
  quota_ok : string -> string -> Storage -> bool
}.

Definition setItem {B : Browser} (k v : string) (ls : Storage) : option Storage :=
  if quota_ok k v ls then Some (<[k := v]> ls) else None.

Definition removeItem (k : string) (ls : Storage) : Storage := delete k ls.

(** [data.version !== CACHE_VERSION] *)
Definition version_mismatch (data : CachedImage) : bool :=
  match version data with
  | Some v => negb (String.eqb v CACHE_VERSION)
  | None => true
  end.

(** [now - data.timestamp > CACHE_EXPIRY_MS] *)
Definition expired (now : Z) (data : CachedImage) : bool :=
  match timestamp data with
  | Some t => now - t >? CACHE_EXPIRY_MS
  | None => false
  end.

(** [clearCachedImage(name)] *)
Definition clearCachedImage {B : Browser} (name : string) (ls : Storage) : Storage :=
  if negb window_defined then ls
  else removeItem (CACHE_PREFIX ++ name) ls.

(** [getCachedImage(name)] at time [now]: the returned value ([None] for
    [null] and [undefined]) and the storage afterwards. *)
Definition getCachedImage {B : Browser} (name : string) (now : Z) (ls : Storage)
    : option string * Storage :=
  if negb window_defined then (None, ls)
  else
    match ls !! (CACHE_PREFIX ++ name) with
    | None => (None, ls)
    | Some cached =>
        if String.eqb cached EmptyString then (None, ls)
        else
          match JSON_parse cached with
          | SyntaxError => (None, ls)
          | JsonNull => (None, ls)
          | JsonValue data =>
              if version_mismatch data then
                (None, removeItem (CACHE_PREFIX ++ name) ls)
              else if expired now data then
                (None, removeItem (CACHE_PREFIX ++ name) ls)
              else (url data, ls)
          end
    end.

(** The object [setCachedImage] serializes. *)
Definition fresh_entry (u : string) (now : Z) : CachedImage :=
  {| url := Some u; timestamp := Some now; version := Some CACHE_VERSION |}.

(** [setCachedImage(name, url)] at time [now]; a failing [setItem] is
    caught and leaves the storage as it was. *)
Definition setCachedImage {B : Browser} (name u : string) (now : Z) (ls : Storage)
    : Storage :=
  if negb window_defined then ls
  else
    let data := fresh_entry u now in
    match setItem (CACHE_PREFIX ++ name) (JSON_stringify data) ls with
    | Some ls' => ls'
    | None => ls
    end.

(** Repeated reads of one name, at the given times. *)
Fixpoint readMany {B : Browser} (name : string) (times : list Z) (ls : Storage)
    : list (option string) * Storage :=
  match times with
  | [] => ([], ls)
  | t :: ts =>
      let '(r, ls1) := getCachedImage name t ls in
      let '(rs, ls2) := readMany name ts ls1 in
      (r :: rs, ls2)
  end.

End ImageCache.

(** ** A concrete browser, to run the cache on concrete storages

    The cache functions and the theorems about them hold for any
    [JSON.parse] and [JSON.stringify]. To evaluate them on examples,
    this module gives an instance: a writer and a reader for the JSON
    texts of flat objects whose members are strings and integers,
    written without white space, as [JSON.stringify] writes a
    [CachedImage]. The reader accepts this fragment only and reports
    every other text as a syntax error. *)

Module MiniJson.

Import ImageCache.

Definition quote : ascii := "034"%char.
Definition backslash : ascii := "092"%char.

Fixpoint escape (s : string) : string :=
  match s with
  | EmptyString => EmptyString
  | String c r =>
      if (Ascii.eqb c quote || Ascii.eqb c backslash)%bool
      then String backslash (String c (escape r))
      else String c (escape r)
  end.

Definition write_string (s : string) : string :=
  String quote (escape s ++ String quote EmptyString).

Definition write_int (z : Z) : string := NilZero.string_of_int (Z.to_int z).

Definition write_member {A : Type} (key : string) (write : A -> string)
    (v : option A) : list string :=
  match v with
  | Some a => [write_string key ++ ":" ++ write a]
  | None => []
  end.

Definition stringify (d : CachedImage) : string :=
  "{" ++ join ","
           (write_member "url" write_string (url d) ++
            write_member "timestamp" write_int (timestamp d) ++
            write_member "version" write_string (version d))%list
      ++ "}".

Inductive JVal : Type := JStr (s : string) | JInt (z : Z).

(** Reads a string literal after its opening quote. *)
Fixpoint read_string (s : string) : option (string * string) :=
  match s with
  | EmptyString => None
  | String c r =>
      if Ascii.eqb c quote then Some (EmptyString, r)
      else if Ascii.eqb c backslash then
        match r with
        | String c' r' =>
            if (Ascii.eqb c' quote || Ascii.eqb c' backslash)%bool then
              match read_string r' with
              | Some (body, rest) => Some (String c' body, rest)
              | None => None
              end
            else None
        | EmptyString => None
        end
      else
        match read_string r with
        | Some (body, rest) => Some (String c body, rest)
        | None => None
        end
  end.

Definition is_digit (c : ascii) : bool :=
  ((48 <=? nat_of_ascii c)%nat && (nat_of_ascii c <=? 57)%nat)%bool.

Fixpoint span_digits (s : string) : string * string :=
  match s with
  | EmptyString => (EmptyString, EmptyString)
  | String c r =>
      if is_digit c
      then let '(d, rest) := span_digits r in (String c d, rest)
      else (EmptyString, s)
  end.

Definition read_nat (s : string) : option (Z * string) :=
  let '(d, rest) := span_digits s in
  match d with
  | EmptyString => None
  | String "0" (String _ _) => None
  | _ =>
      match NilZero.uint_of_string d with
      | Some u => Some (Z.of_N (N.of_uint u), rest)
      | None => None
      end
  end.

Definition read_int (s : string) : option (Z * string) :=
  match s with
  | String "-" r =>
      match read_nat r with
      | Some (z, rest) => Some (- z, rest)
      | None => None
      end
  | _ => read_nat s
  end.

Definition read_value (s : string) : option (JVal * string) :=
  match s with
  | String c r =>
      if Ascii.eqb c quote then
        match read_string r with
        | Some (v, rest) => Some (JStr v, rest)
        | None => None
        end
      else
        match read_int s with
        | Some (z, rest) => Some (JInt z, rest)
        | None => None
        end
  | EmptyString => None
  end.

Definition read_member (s : string) : option ((string * JVal) * string) :=
  match s with
  | String c r =>
      if Ascii.eqb c quote then
        match read_string r with
        | Some (key, String ":" r1) =>
            match read_value r1 with
            | Some (v, rest) => Some ((key, v), rest)
            | None => None
            end
        | _ => None
        end
      else None
  | EmptyString => None
  end.

(** Reads [member (, member)* }] up to the end of the text. *)
Fixpoint read_members (fuel : nat) (s : string) : option (list (string * JVal)) :=
  match fuel with
  | O => None
  | S fuel' =>
      match read_member s with
      | Some (kv, String "}" EmptyString) => Some [kv]
      | Some (kv, String "," r) =>
          match read_members fuel' r with
          | Some kvs => Some (kv :: kvs)
          | None => None
          end
      | _ => None
      end
  end.

(** The last member with the given key, as [data.key] reads it. *)
Fixpoint member (key : string) (kvs : list (string * JVal)) : option JVal :=
  match kvs with
  | [] => None
  | (k, v) :: r =>
      match member key r with
      | Some v' => Some v'
      | None => if String.eqb k key then Some v else None
      end
  end.

(** The three properties of an object; [None] when a property has a
    type outside the fragment. *)
Definition view (kvs : list (string * JVal)) : option CachedImage :=
  match member "url" kvs, member "timestamp" kvs, member "version" kvs with
  | Some (JInt _), _, _ | _, Some (JStr _), _ | _, _, Some (JInt _) => None
  | u, t, v =>
      Some {| url := match u with Some (JStr x) => Some x | _ => None end;
              timestamp := match t with Some (JInt z) => Some z | _ => None end;
              version := match v with Some (JStr x) => Some x | _ => None end |}
  end.

Definition parse (s : string) : Parsed :=
  if String.eqb s "null" then JsonNull
  else if String.eqb s "{}" then JsonValue (mkCachedImage None None None)
  else
    match s with
    | String "{" r =>
        match read_members (String.length r) r with
        | Some kvs =>
            match view kvs with
            | Some d => JsonValue d
            | None => SyntaxError
            end
        | None => SyntaxError
        end
    | _ =>
        match read_value s with
        | Some (_, EmptyString) => JsonValue (mkCachedImage None None None)
        | _ => SyntaxError
        end
    end.

(** A browser whose storage never runs out of quota. *)
Definition browser : Browser :=
  {| window_defined := true;
     JSON_parse := parse;
     JSON_stringify := stringify;
     quota_ok := fun _ _ _ => true |}.

(** The same code on the server, where [window] is undefined. *)
Definition server : Browser :=
  {| window_defined := false;
     JSON_parse := parse;
     JSON_stringify := stringify;
     quota_ok := fun _ _ _ => true |}.

End MiniJson.

(** ** The model listing ([getAvailableModels]) *)

Module Listing.

(** One element of [data.models]; a property is [None] when undefined. *)
Record ModelInfo : Type := mkModelInfo {
  name : option string;
  supportedGenerationMethods : option (list string)
}.

(** What the request of [getAvailableModels] can come to. *)
Inductive ListResponse : Type :=
| Throws                         (* [fetch], [response.json()] or a read of
                                    the body throws: the [catch] block *)
| NotOk (status : Z)             (* [!response.ok] *)
| Listed (models : option (list ModelInfo)).   (* [data.models] *)

(** [s.replace(pat, '')] for a non-empty string [pat]: the first
    occurrence of [pat] is removed. *)
Fixpoint remove_first (s pat : string) : string :=
  if String.prefix pat s then
    String.substring (String.length pat) (String.length s - String.length pat) s
  else
    match s with
    | EmptyString => EmptyString
    | String c r => String c (remove_first r pat)
    end.

(** [model.name?.replace('models/', '') || model.name] *)
Definition stripped_name (m : ModelInfo) : option string :=
  match name m with
  | Some n => Some (JsString.or_else (remove_first n "models/") n)
  | None => None
  end.

(** [model.supportedGenerationMethods?.includes('generateContent')] *)
Definition supports_generateContent (m : ModelInfo) : bool :=
  match supportedGenerationMethods m with
  | Some methods => existsb (String.eqb "generateContent") methods
  | None => false
  end.

(** [getAvailableModels(apiKey)], given what its request came to. An
    element is [None] where the listed model has no [name]. *)
Definition getAvailableModels (r : ListResponse) : list (option string) :=
  match r with
  | Listed (Some models) =>
      List.map stripped_name (List.filter supports_generateContent models)
  | Listed None => []
  | NotOk _ => []
  | Throws => []
  end.

(** The elements of an array of names, when none of them is undefined. *)
Fixpoint defined_names (l : list (option string)) : option (list string) :=
  match l with
  | [] => Some []
  | Some n :: r =>
      match defined_names r with
      | Some ns => Some (n :: ns)
      | None => None
      end
  | None :: _ => None
  end.

(** [getModelsToTry(apiKey)] with its call of [getAvailableModels]. The
    result is [None] when it throws: the first filter calls [m.includes]
    on every element, which fails on an undefined one. *)
Definition getModelsToTry (r : ListResponse) : option (list string) :=
  match defined_names (getAvailableModels r) with
  | Some availableModels => Some (Resolver.getModelsToTry availableModels)
  | None => None
  end.

End Listing.

(** ** The other handlers that run the loop *)

Module Handlers.

Import Invoker.

(** [api/analyze] and [api/voice-coach]: [continue] on 503, 404 or 400,
    otherwise [break]. *)
Definition analyze_policy : Policy :=
  {| retryable e :=
       status_is (Some e) 503 || status_is (Some e) 404 || status_is (Some e) 400;
     on_fatal := Break |}.

(** [lastError.message?.includes(text)] *)
Definition message_includes (e : ApiError) (text : string) : bool :=
  includes (message e) text.

(** The response of [api/analyze] when its loop ended without a result:
    the block [if (!result)], then [if (!result && lastError)], then the
    last [if (!result)]. *)
Definition analyze_terminal_response (modelNames : list string)
    (lastError : option ApiError) : Response :=
  if status_is lastError 503 then
    {| code := 503;
       error := "All models are currently overloaded. Please try again in a few moments. Tried: "
                  ++ join ", " modelNames |}
  else if status_is lastError 404 then
    {| code := 404;
       error := "No available vision models found. Tried: " ++ join ", " modelNames ++
                ". Your API key may not have access to these models. Please check your Google AI Studio account." |}
  else
    match lastError with
    | Some e =>
        if status_is lastError 401 || message_includes e "API key" then
          {| code := 401; error := "Authentication failed: Invalid GEMINI_API_KEY" |}
        else if status_is lastError 404 || message_includes e "not found" then
          {| code := 404;
             error := "Model not found. Tried: " ++ join ", " modelNames ++
                      ". Your API key may not have access to these models. Please check your Google AI Studio account." |}
        else if status_is lastError 429 then
          {| code := 429; error := "Rate limit exceeded. Please try again later" |}
        else if status_is lastError 400 || message_includes e "safety" then
          {| code := 400; error := "Image content violates safety policies" |}
        else
          {| code := 500;
             error := or_else (message e) "Unknown error occurred during analysis" |}
    | None =>
        {| code := 500; error := "Failed to generate analysis. Please try again." |}
    end.

(** [api/analyze] after the loop: the result, or the error response. *)
Definition analyze_invoke {R : Type} (call : nat -> string -> Outcome R)
    (modelNames : list string) : R + Response :=
  match invoke analyze_policy call modelNames with
  | Finished (Some r) _ _ => inl r
  | Finished None lastError _ => inr (analyze_terminal_response modelNames lastError)
  | Threw e _ =>
      inr {| code := 500;
             error := or_else (message e) "Unknown error occurred during analysis" |}
  end.

(** The error body of [api/generate]: the HTTP status, [error],
    [details], and [statusCode] when present. *)
Record GenerateFailure : Type := mkGenerateFailure {
  http_status : Z;
  error_text : string;
  details : string;
  statusCode : option Z
}.

(** [error.status], when it is a truthy number. *)
Definition truthy_status (e : ApiError) : option Z :=
  match status e with
  | Some s => if s =? 0 then None else Some s
  | None => None
  end.

(** Whether [NextResponse.json(body, { status })] builds a response: it
    throws a [RangeError] for a status outside 200..599 and a [TypeError]
    for a status that allows no body (204, 205, 304). *)
Definition response_status_accepted (s : Z) : bool :=
  (200 <=? s) && (s <=? 599) &&
  negb ((s =? 204) || (s =? 205) || (s =? 304)).

(** The outer [catch] of [api/generate]: the body and
    [{ status: error.status || 500 }]; [None] when [NextResponse.json]
    throws on that status, out of the [catch] block. *)
Definition generate_catch (e : ApiError) : option GenerateFailure :=
  let s := match truthy_status e with Some s => s | None => 500 end in
  if response_status_accepted s then
    Some {| http_status := s;
            error_text := "Failed to generate fitness plan";
            details := or_else (message e) "Unknown error occurred";
            statusCode := truthy_status e |}
  else None.

(** How [api/generate] ends as far as the loop decides it. *)
Inductive GenerateEnd : Type :=
| GoesOn                              (* a result: the handler parses it *)
| Answers (body : GenerateFailure)    (* the error response *)
| Rejects.                            (* the outer [catch] itself throws *)

(** What [api/generate] does after the loop and its [if (!result)]
    block. *)
Definition generate_failure {R : Type} (call : nat -> string -> Outcome R)
    (modelNames : list string) : GenerateEnd :=
  match generate_invoke call modelNames with
  | inl _ => GoesOn
  | inr e =>
      match generate_catch e with
      | Some body => Answers body
      | None => Rejects
      end
  end.

End Handlers.

(** ** The image handler ([api/image]): choosing the picture *)

Module ImageRoute.

(** The conversion that [| 0] and [<<] apply to a number: the integer
    modulo 2^32, read as a signed 32-bit integer. *)
Definition toInt32 (z : Z) : Z := (z + 2 ^ 31) mod 2 ^ 32 - 2 ^ 31.

(** [acc << 5] *)
Definition shl5 (acc : Z) : Z := toInt32 (Z.shiftl (toInt32 acc) 5).

(** [((acc << 5) - acc) + char.charCodeAt(0) | 0]; [c] is a UTF-16 code
    unit. The subtraction and the addition are exact on numbers of this
    size. *)
Definition hash_step (acc c : Z) : Z := toInt32 (shl5 acc - acc + c).

(** [itemName.split('').reduce(..., 0)], on the UTF-16 code units of
    [itemName]. *)
Definition itemHash (units : list Z) : Z := fold_left hash_step units 0.

(** [Math.abs(itemHash) % length] *)
Definition imageIndex (hash len : Z) : Z := Z.rem (Z.abs hash) len.

(** [array[i]]: undefined outside the array. *)
Definition array_get {A : Type} (l : list A) (i : Z) : option A :=
  if i <? 0 then None else nth_error l (Z.to_nat i).

(** The code units of a text of ASCII characters. *)
Definition units_of_ascii (s : string) : list Z :=
  List.map (fun c => Z.of_nat (nat_of_ascii c)) (list_ascii_of_string s).

Definition foodImages : list string :=
  [ "https://images.unsplash.com/photo-1546069901-ba9599a7e63c?w=400&h=300&fit=crop&q=80";
    "https://images.unsplash.com/photo-1490645935967-10de6ba17061?w=400&h=300&fit=crop&q=80";
    "https://images.unsplash.com/photo-1504674900247-0877df9cc836?w=400&h=300&fit=crop&q=80";
    "https://images.unsplash.com/photo-1512621776951-a57141f2eefd?w=400&h=300&fit=crop&q=80" ].

Definition fitnessImages : list string :=
  [ "https://images.unsplash.com/photo-1571019613454-1cb2f99b2d8b?w=400&h=300&fit=crop&q=80";
    "https://images.unsplash.com/photo-1517836357463-d25dfeac3438?w=400&h=300&fit=crop&q=80";
    "https://images.unsplash.com/photo-1534438327276-14e5300c3a48?w=400&h=300&fit=crop&q=80";
    "https://images.unsplash.com/photo-1544367567-0f2fcb009e0b?w=400&h=300&fit=crop&q=80" ].

(** The last resort: a themed picture chosen by the hash of the name. *)
Definition placeholder (isMeal : bool) (units : list Z) : option string :=
  let images := if isMeal then foodImages else fitnessImages in
  array_get images (imageIndex (itemHash units) (Z.of_nat (length images))).

Definition foodImageMap : list (string * string) :=
  [ ("burger", "https://images.unsplash.com/photo-1568901346375-23c9450c58cd?w=800&h=600&fit=crop&q=80");
    ("shake", "https://images.unsplash.com/photo-1572490122747-3968b75cc699?w=800&h=600&fit=crop&q=80");
    ("smoothie", "https://images.unsplash.com/photo-1553530666-ba11a7da3888?w=800&h=600&fit=crop&q=80");
    ("salad", "https://images.unsplash.com/photo-1512621776951-a57141f2eefd?w=800&h=600&fit=crop&q=80");
    ("chicken", "https://images.unsplash.com/photo-1604503468506-a8da13d82791?w=800&h=600&fit=crop&q=80");
    ("fish", "https://images.unsplash.com/photo-1544947950-fa07a98d237f?w=800&h=600&fit=crop&q=80");
    ("pasta", "https://images.unsplash.com/photo-1551183053-bf91a1d81141?w=800&h=600&fit=crop&q=80");
    ("pizza", "https://images.unsplash.com/photo-1565299624946-b28f40a0ae38?w=800&h=600&fit=crop&q=80");
    ("soup", "https://images.unsplash.com/photo-1547592166-23ac45744acd?w=800&h=600&fit=crop&q=80");
    ("sandwich", "https://images.unsplash.com/photo-1539252554453-80ab65ce3586?w=800&h=600&fit=crop&q=80");
    ("vegan", "https://images.unsplash.com/photo-1512621776951-a57141f2eefd?w=800&h=600&fit=crop&q=80");
    ("protein", "https://images.unsplash.com/photo-1546069901-ba9599a7e63c?w=800&h=600&fit=crop&q=80");
    ("grilled", "https://images.unsplash.com/photo-1604503468506-a8da13d82791?w=800&h=600&fit=crop&q=80");
    ("baked", "https://images.unsplash.com/photo-1544947950-fa07a98d237f?w=800&h=600&fit=crop&q=80");
    ("potato", "https://images.unsplash.com/photo-1512621776951-a57141f2eefd?w=800&h=600&fit=crop&q=80");
    ("broccoli", "https://images.unsplash.com/photo-1512621776951-a57141f2eefd?w=800&h=600&fit=crop&q=80") ].

Definition exerciseImageMap : list (string * string) :=
  [ ("walk", "https://images.unsplash.com/photo-1544367567-0f2fcb009e0b?w=800&h=600&fit=crop&q=80");
    ("jog", "https://images.unsplash.com/photo-1544367567-0f2fcb009e0b?w=800&h=600&fit=crop&q=80");
    ("run", "https://images.unsplash.com/photo-1544367567-0f2fcb009e0b?w=800&h=600&fit=crop&q=80");
    ("push", "https://images.unsplash.com/photo-1517836357463-d25dfeac3438?w=800&h=600&fit=crop&q=80");
    ("squat", "https://images.unsplash.com/photo-1517836357463-d25dfeac3438?w=800&h=600&fit=crop&q=80");
    ("deadlift", "https://images.unsplash.com/photo-1517836357463-d25dfeac3438?w=800&h=600&fit=crop&q=80");
    ("bench", "https://images.unsplash.com/photo-1517836357463-d25dfeac3438?w=800&h=600&fit=crop&q=80");
    ("curl", "https://images.unsplash.com/photo-1517836357463-d25dfeac3438?w=800&h=600&fit=crop&q=80");
    ("press", "https://images.unsplash.com/photo-1517836357463-d25dfeac3438?w=800&h=600&fit=crop&q=80") ].

(** [Object.keys(mapToCheck).find(key => lowerName.includes(key))], with
    the value the key maps to. *)
Definition directMatch (isMeal : bool) (lowerName : string)
    : option (string * string) :=
  List.find (fun kv => includes lowerName (fst kv))
            (if isMeal then foodImageMap else exerciseImageMap).

(** A string that is truthy: defined and not empty. *)
Definition truthy (o : option string) : option string :=
  match o with
  | Some s => if String.eqb s EmptyString then None else Some s
  | None => None
  end.

(** [a || b] on possibly undefined strings. *)
Definition or_value (a b : option string) : option string :=
  match truthy a with
  | Some s => Some s
  | None => b
  end.

(** What the call of [openai.images.generate] gives: the [url] of the
    first picture ([None] when there is none), or an exception. *)
Inductive OpenAIOutcome : Type :=
| OpenAIReturns (url : option string)
| OpenAIThrows (message : string).

(** [selectedImage.urls] of one search result. *)
Record UnsplashUrls : Type := mkUnsplashUrls {
  regular : option string;
  small : option string;
  thumb : option string
}.

(** What the Unsplash search gives; a result is [None] when it has no
    [urls]. *)
Inductive UnsplashOutcome : Type :=
| UnsplashThrows (message : string)
| UnsplashNotOk (status : Z)
| UnsplashData (results : option (list (option UnsplashUrls))).

(** The body of the answer: [url], [provider], and whether [note] is
    spread into it. *)
Record ImageAnswer : Type := mkImageAnswer {
  url : option string;
  provider : string;
  note : bool
}.

(** Option 1: OpenAI, when a client is configured. *)
Definition tryOpenAI (openai : option OpenAIOutcome) : option string * string :=
  match openai with
  | Some (OpenAIReturns u) =>
      match truthy u with
      | Some x => (Some x, "openai")
      | None => (None, "unknown")
      end
  | Some (OpenAIThrows _) => (None, "unknown")
  | None => (None, "unknown")
  end.

(** Option 2: the Unsplash search when an access key is configured,
    otherwise the curated pictures. [before] is the provider so far. *)
Definition tryUnsplash (units : list Z) (lowerName : string) (isMeal : bool)
    (unsplashApiKey : bool) (unsplash : UnsplashOutcome) (before : string)
    : option string * string :=
  if unsplashApiKey then
    match unsplash with
    | UnsplashData (Some results) =>
        if 0 <? Z.of_nat (length results) then
          match array_get results
                  (imageIndex (itemHash units) (Z.of_nat (length results))) with
          | Some (Some urls) =>
              (or_value (regular urls) (or_value (small urls) (thumb urls)),
               "unsplash")
          | Some None => (None, "unsplash")
          | None => (None, before)
          end
        else (None, before)
    | UnsplashData None => (None, before)
    | UnsplashNotOk _ => (None, before)
    | UnsplashThrows _ => (None, before)
    end
  else
    match directMatch isMeal lowerName with
    | Some (_, picture) => (Some picture, "unsplash-curated")
    | None => (None, before)
    end.

(** The handler from the detection on. [units] are the code units of
    [itemName], [lowerName] is [itemName.toLowerCase()] and [isMeal] the
    result of the detection; [openai] is [None] without a client. *)
Definition chooseImage (units : list Z) (lowerName : string) (isMeal : bool)
    (openai : option OpenAIOutcome) (unsplashApiKey : bool)
    (unsplash : UnsplashOutcome) : ImageAnswer :=
  let '(imageUrl1, provider1) := tryOpenAI openai in
  let '(imageUrl2, provider2) :=
    match truthy imageUrl1 with
    | Some _ => (imageUrl1, provider1)
    | None => tryUnsplash units lowerName isMeal unsplashApiKey unsplash provider1
    end in
  let '(imageUrl3, provider3) :=
    match truthy imageUrl2 with
    | Some _ => (imageUrl2, provider2)
    | None => (placeholder isMeal units, "placeholder")
    end in
  {| url := imageUrl3;
     provider := provider3;
     note := String.eqb provider3 "unsplash" |}.

End ImageRoute.

(** ** The hook [useExerciseImage]: loading a picture through the cache *)

Module Hook.

Import ImageCache.

(** The state variables of the hook that the loading functions set. *)
Record State : Type := mkState {
  url : option string;
  loading : bool;
  error : option string;
  currentName : option string
}.

(** What the request to [/api/image] comes to. *)
Inductive FetchOutcome : Type :=
| FetchThrows (message : string)          (* [fetch] or [response.json()]
                                             of an ok response throws *)
| ResponseNotOk (error : option string)   (* [errorData.error] *)
| ResponseOk (url imageUrl : option string). (* [data.url], [data.imageUrl] *)

(** The message the [catch] block of [fetchImage] sets. *)
Definition failure_message (message : string) : string :=
  JsString.or_else message "Failed to generate image".

(** [fetchImage(name)]. [trim] is [String.prototype.trim]; [now] is the
    time of the cache read and [later] the time of the cache write;
    [resp] is what the request comes to, if it is made. The third
    component tells whether the request was made. *)
Definition fetchImage {B : Browser} (trim : string -> string) (name : string)
    (now later : Z) (resp : FetchOutcome) (st : State) (ls : Storage)
    : State * Storage * bool :=
  if String.eqb name EmptyString || String.eqb (trim name) EmptyString then
    ({| url := url st; loading := loading st;
        error := Some "Exercise name is required";
        currentName := currentName st |}, ls, false)
  else
    let exerciseName := trim name in
    let '(cachedUrl, ls1) := getCachedImage exerciseName now ls in
    match ImageRoute.truthy cachedUrl with
    | Some u =>
        ({| url := Some u; loading := false; error := None;
            currentName := Some exerciseName |}, ls1, false)
    | None =>
        match resp with
        | FetchThrows m =>
            ({| url := None; loading := false;
                error := Some (failure_message m);
                currentName := Some exerciseName |}, ls1, true)
        | ResponseNotOk e =>
            ({| url := None; loading := false;
                error := Some (failure_message
                                 (match ImageRoute.truthy e with
                                  | Some m => m
                                  | None => "Failed to generate image"
                                  end));
                currentName := Some exerciseName |}, ls1, true)
        | ResponseOk u iu =>
            match ImageRoute.truthy (ImageRoute.or_value u iu) with
            | Some imageUrl =>
                ({| url := Some imageUrl; loading := false; error := None;
                    currentName := Some exerciseName |},
                 setCachedImage exerciseName imageUrl later ls1, true)
            | None =>
                ({| url := None; loading := false;
                    error := Some (failure_message "No image URL returned");
                    currentName := Some exerciseName |}, ls1, true)
            end
        end
    end.

(** [loadFromCache(name)] *)
Definition loadFromCache {B : Browser} (trim : string -> string) (name : string)
    (now : Z) (st : State) (ls : Storage) : State * Storage :=
  if String.eqb name EmptyString || String.eqb (trim name) EmptyString then
    (st, ls)
  else
    let '(cachedUrl, ls1) := getCachedImage (trim name) now ls in
    match ImageRoute.truthy cachedUrl with
    | Some u =>
        ({| url := Some u; loading := loading st; error := None;
            currentName := currentName st |}, ls1)
    | None => (st, ls1)
    end.

(** [reset()] *)
Definition reset (st : State) : State :=
  {| url := None; loading := false; error := None;
     currentName := currentName st |}.

End Hook.

(** ** The priority order of the resolver *)

Module ResolverOrder.

Import Resolver.

(** The place of an identifier in the answer of [getModelsToTry] on a
    non-empty listing: 0 to 5 for the six lists that are concatenated, in
    their order, and 6 for an identifier that is in none of them. *)
Definition bucket (m : string) : nat :=
  if is_preview m then 5
  else if negb (is_stable m) then 6
  else if is_geminiFlash m then 0
  else if is_geminiPro m then 1
  else if is_otherGemini m then 2
  else if is_otherStable m then 3
  else if is_gemma m then 4
  else 6.

(** A list whose elements come in non-decreasing order of [f]. *)
Definition ordered_by {A : Type} (f : A -> nat) (l : list A) : Prop :=
  forall (i j : nat) (x y : A),
    (i < j)%nat -> l !! i = Some x -> l !! j = Some y -> (f x <= f y)%nat.

(** The elements of [l] grouped by the values [ks] of [f], group after
    group. *)
Definition grouped {A : Type} (f : A -> nat) (ks : list nat) (l : list A)
    : list A :=
  flat_map (fun k => List.filter (fun x => (f x =? k)%nat) l) ks.

End ResolverOrder.

Import Resolver Invoker ImageCache.


(** * Properties *)

(** ** Strings *)

Section StringFacts.

Lemma append_String (c : ascii) (a b : string) :
  String c a ++ b = String c (a ++ b).
Proof. reflexivity. Qed.

Lemma append_nil_l (b : string) : EmptyString ++ b = b.
Proof. reflexivity. Qed.

Lemma prefix_append (p r : string) : String.prefix p (p ++ r) = true.
Proof.
  induction p as [|c p IH].
  - rewrite append_nil_l. now destruct r.
  - rewrite append_String. simpl.
    destruct (Ascii.ascii_dec c c); [exact IH | congruence].
Qed.

Lemma prefix_inv (p s : string) :
  String.prefix p s = true -> exists r, s = p ++ r.
Proof.
  revert s. induction p as [|c p IH]; intros s H.
  - now exists s.
  - destruct s as [|d s]; simpl in H; [discriminate|].
    destruct (Ascii.ascii_dec c d) as [->|]; [|discriminate].
    destruct (IH _ H) as [r ->]. now exists r.
Qed.

Lemma append_assoc (a b c : string) : (a ++ b) ++ c = a ++ b ++ c.
Proof.
  induction a as [|x a IH]; [reflexivity|].
  rewrite !append_String. now rewrite IH.
Qed.

Lemma append_empty_r (a : string) : a ++ EmptyString = a.
Proof.
  induction a as [|x a IH]; [reflexivity|].
  rewrite append_String. now rewrite IH.
Qed.

(** [includes] decides the substring relation. *)
Lemma includes_spec (s sub : string) :
  includes s sub = true <-> exists a b, s = a ++ sub ++ b.
Proof.
  split.
  - induction s as [|c s IH]; cbn [includes]; rewrite orb_true_iff.
    + intros [H|H]; [|discriminate].
      destruct (prefix_inv _ _ H) as [r Hr]. now exists EmptyString, r.
    + intros [H|H].
      * destruct (prefix_inv _ _ H) as [r Hr]. now exists EmptyString, r.
      * destruct (IH H) as (a & b & ->). now exists (String c a), b.
  - intros (a & b & ->). induction a as [|c a IH].
    + rewrite append_nil_l.
      destruct (sub ++ b) eqn:E; cbn [includes]; rewrite <- E, prefix_append;
        reflexivity.
    + rewrite append_String. cbn [includes]. rewrite IH. apply orb_true_r.
Qed.

Lemma includes_middle (a sub b : string) : includes (a ++ sub ++ b) sub = true.
Proof. apply includes_spec. now exists a, b. Qed.

Lemma includes_trans (s t u : string) :
  includes s t = true -> includes t u = true -> includes s u = true.
Proof.
  rewrite !includes_spec. intros (a & b & ->) (c & d & ->).
  exists (a ++ c), (d ++ b). now rewrite !append_assoc.
Qed.

(** Every element of an array occurs in its [join]. *)
Lemma includes_join (sep x : string) (l : list string) :
  In x l -> includes (join sep l) x = true.
Proof.
  unfold join. induction l as [|y l IH]; intros Hin; [contradiction|].
  apply includes_spec. destruct l as [|z l].
  - destruct Hin as [->|[]]. exists EmptyString, EmptyString.
    now rewrite append_nil_l, append_empty_r.
  - change (String.concat sep (y :: z :: l))
      with (y ++ sep ++ String.concat sep (z :: l)).
    destruct Hin as [->|Hin].
    + now exists EmptyString, (sep ++ String.concat sep (z :: l)).
    + apply IH, includes_spec in Hin. destruct Hin as (a & b & E).
      exists (y ++ sep ++ a), b. rewrite E. now rewrite !append_assoc.
Qed.

(** A text built around a [join] mentions every joined element. *)
Lemma includes_around_join (pre post sep x : string) (l : list string) :
  In x l -> includes (pre ++ join sep l ++ post) x = true.
Proof.
  intros Hin. eapply includes_trans; [apply includes_middle|].
  now apply includes_join.
Qed.

End StringFacts.

(** ** The model resolver *)

Section ResolverFacts.

Lemma is_stable_not_preview (m : string) :
  is_stable m = true -> is_preview m = false.
Proof.
  unfold is_stable, is_preview.
  destruct (includes m "preview"), (includes m "experimental"),
    (includes m "exp"); simpl; congruence.
Qed.

Lemma is_stable_not_beta (m : string) :
  is_stable m = true -> includes m "beta" = false.
Proof.
  unfold is_stable. rewrite !andb_true_iff, !negb_true_iff. tauto.
Qed.

(** The shape of the resolver's answer on a non-empty listing: members of
    [stableModels], then [previewModels]. *)
Lemma getModelsToTry_shape (l : list string) :
  l <> [] ->
  exists stablePart,
    getModelsToTry l = (stablePart ++ List.filter is_preview l)%list /\
    (forall m, In m stablePart -> In m l /\ is_stable m = true).
Proof.
  intros Hne. unfold getModelsToTry.
  destruct l as [|x l]; [congruence|]. clear Hne.
  replace (0 <? Z.of_nat (length (x :: l))) with true
    by (symmetry; apply Z.ltb_lt; simpl length; lia).
  set (st := List.filter is_stable (x :: l)).
  exists (List.filter is_geminiFlash st ++ List.filter is_geminiPro st ++
          List.filter is_otherGemini st ++ List.filter is_otherStable st ++
          List.filter is_gemma st)%list.
  split.
  - now rewrite <- !app_assoc.
  - intros m Hm.
    assert (In m st) as Hst.
    { repeat (apply in_app_or in Hm; destruct Hm as [Hm|Hm]);
        apply filter_In in Hm; tauto. }
    apply filter_In in Hst. exact Hst.
Qed.

(** Whatever is returned for a non-empty listing was listed. *)
Lemma getModelsToTry_subset (l : list string) (m : string) :
  l <> [] -> In m (getModelsToTry l) -> In m l.
Proof.
  intros Hne Hin. destruct (getModelsToTry_shape l Hne) as (sp & E & Hsp).
  rewrite E in Hin. apply in_app_or in Hin. destruct Hin as [Hin|Hin].
  - now apply Hsp.
  - apply filter_In in Hin. tauto.
Qed.

(** On an empty listing the hard-coded list is returned. *)
Lemma getModelsToTry_empty : getModelsToTry [] = fallbackModels.
Proof. reflexivity. Qed.

(** A typical listing: flash, pro, other Gemini, other vendors, Gemma,
    and preview identifiers last. *)
Example getModelsToTry_typical :
  getModelsToTry
    [ "gemma-3-27b-it"; "gemini-2.5-pro-preview"; "gemini-1.5-pro";
      "gemini-2.0-flash"; "gemini-ultra"; "aqa" ]
  = [ "gemini-2.0-flash"; "gemini-1.5-pro"; "gemini-ultra"; "aqa";
      "gemma-3-27b-it"; "gemini-2.5-pro-preview" ].
Proof. reflexivity. Qed.

(** C2: on the listing that holds the single identifier [gemini-pro], an
    entry of the resolver's own hard-coded list, the resolver returns the
    empty list: the identifier has no version number, so it is in none of
    the stable buckets, and it is not a preview identifier either. The
    same happens to [gemini-flash-latest] and to [gemini-beta]. *)
Theorem C2_getModelsToTry_empty_result :
  getModelsToTry ["gemini-pro"] = [] /\
  getModelsToTry ["gemini-flash-latest"; "gemini-beta"] = [] /\
  In "gemini-pro" fallbackModels.
Proof. repeat split; try reflexivity. simpl. tauto. Qed.

(** C7: in the list the resolver returns, for every listing, an
    identifier containing "preview", "experimental" or "exp" never stands
    before an identifier containing none of them: if [p], at index [i],
    is such a preview identifier and [s], at index [j], is not, then
    [j < i]. *)
Theorem C7_no_preview_before_stable (l : list string) (i j : nat) (p s : string) :
  getModelsToTry l !! i = Some p ->
  getModelsToTry l !! j = Some s ->
  is_preview p = true ->
  is_preview s = false ->
  (j < i)%nat.
Proof.
  intros Hi Hj Hp Hs.
  destruct l as [|x l].
  - (* the hard-coded list has no preview identifier *)
    rewrite getModelsToTry_empty in Hi.
    apply list_elem_of_lookup_2, list_elem_of_In in Hi.
    simpl in Hi. exfalso.
    repeat (destruct Hi as [<-|Hi]; [vm_compute in Hp; discriminate|]).
    exact Hi.
  - destruct (getModelsToTry_shape (x :: l)) as (sp & E & Hsp); [discriminate|].
    rewrite E in Hi, Hj.
    destruct (Nat.lt_ge_cases i (length sp)) as [Hlt|Hge].
    + rewrite lookup_app_l in Hi by exact Hlt.
      apply list_elem_of_lookup_2, list_elem_of_In, Hsp in Hi.
      destruct Hi as [_ Hst]. apply is_stable_not_preview in Hst. congruence.
    + destruct (Nat.lt_ge_cases j (length sp)) as [Hlt'|Hge']; [lia|].
      rewrite lookup_app_r in Hj by exact Hge'.
      apply list_elem_of_lookup_2, list_elem_of_In, filter_In in Hj.
      destruct Hj as [_ Hj]. congruence.
Qed.

Lemma C7_no_preview_before_stable_witness :
  getModelsToTry ["gemini-2.5-pro-preview"; "gemini-1.5-flash"]
    = ["gemini-1.5-flash"; "gemini-2.5-pro-preview"] /\ (0 < 1)%nat.
Proof.
  split; [reflexivity|].
  apply (C7_no_preview_before_stable
           ["gemini-2.5-pro-preview"; "gemini-1.5-flash"] 1 0
           "gemini-2.5-pro-preview" "gemini-1.5-flash"); reflexivity.
Defined.

(** C9: an identifier of a non-empty listing that contains "beta" and
    none of "preview", "experimental", "exp" is not in the list the
    resolver returns: the stable filter rejects it and the preview filter
    does not take it back. *)
Theorem C9_beta_only_dropped (l : list string) (m : string) :
  l <> [] ->
  In m l ->
  includes m "beta" = true ->
  is_preview m = false ->
  ~ In m (getModelsToTry l).
Proof.
  intros Hne _ Hbeta Hprev Hin.
  destruct (getModelsToTry_shape l Hne) as (sp & E & Hsp).
  rewrite E in Hin. apply in_app_or in Hin. destruct Hin as [Hin|Hin].
  - apply Hsp in Hin. destruct Hin as [_ Hst].
    apply is_stable_not_beta in Hst. congruence.
  - apply filter_In in Hin. destruct Hin as [_ Hin]. congruence.
Qed.

Lemma C9_beta_only_dropped_witness :
  In "gemini-2.0-beta" ["gemini-1.5-flash"; "gemini-2.0-beta"] /\
  ~ In "gemini-2.0-beta" (getModelsToTry ["gemini-1.5-flash"; "gemini-2.0-beta"]).
Proof.
  split; [simpl; tauto|].
  apply (C9_beta_only_dropped ["gemini-1.5-flash"; "gemini-2.0-beta"]
           "gemini-2.0-beta");
    [discriminate | simpl; tauto | reflexivity | reflexivity].
Defined.

End ResolverFacts.

(** ** The fallback loops *)

Section InvokerFacts.

Context {R : Type}.
Implicit Types (pol : Policy) (call : nat -> string -> Outcome R).

Lemma last_error_cons (e : ApiError) (errs : list ApiError) (init : option ApiError) :
  last_error (e :: errs) init = last_error errs (Some e).
Proof. unfold last_error. rewrite last_cons. now destruct (last errs). Qed.

Lemma retried_errors_length pol call k ms errs :
  retried_errors pol call k ms = Some errs -> length errs = length ms.
Proof.
  revert k errs. induction ms as [|m ms IH]; intros k errs H; simpl in H.
  - now inversion H.
  - destruct (call k m); [discriminate|].
    destruct (retryable pol e); [|discriminate].
    destruct (retried_errors pol call (S k) ms) eqn:E; [|discriminate].
    inversion H; subst. simpl. f_equal. eauto.
Qed.

(** A retried failure extends a run of retried failures. *)
Lemma retried_errors_snoc pol call pre m k errs e :
  retried_errors pol call k pre = Some errs ->
  call (k + length pre)%nat m = Failure e ->
  retryable pol e = true ->
  retried_errors pol call k (pre ++ [m]) = Some (errs ++ [e])%list.
Proof.
  revert k errs. induction pre as [|x pre IH]; intros k errs Hpre Hcall Hr.
  - simpl in *. inversion Hpre; subst.
    rewrite Nat.add_0_r in Hcall. now rewrite Hcall, Hr.
  - simpl in *. destruct (call k x) as [|e0]; [discriminate|].
    destruct (retryable pol e0); [|discriminate].
    destruct (retried_errors pol call (S k) pre) as [l|] eqn:E; [|discriminate].
    inversion Hpre; subst.
    rewrite (IH (S k) l E); [reflexivity| |exact Hr].
    now rewrite Nat.add_succ_l, <- Nat.add_succ_r.
Qed.

(** Calls that fail with retried errors are passed over: the loop goes on
    with the rest of the list, having recorded each identifier and kept
    the last error. *)
Lemma tryModels_skip pol call pre rest k errs lastError attempts :
  retried_errors pol call k pre = Some errs ->
  tryModels pol call k (pre ++ rest) lastError attempts =
  tryModels pol call (k + length pre) rest (last_error errs lastError)
            (attempts ++ pre).
Proof.
  revert k errs lastError attempts.
  induction pre as [|m pre IH]; intros k errs lastError attempts H; simpl in H.
  - inversion H; subst. simpl. now rewrite Nat.add_0_r, app_nil_r.
  - destruct (call k m) as [r|e] eqn:Ec; [discriminate|].
    destruct (retryable pol e) eqn:Er; [|discriminate].
    destruct (retried_errors pol call (S k) pre) as [es|] eqn:E; [|discriminate].
    inversion H; subst. simpl. rewrite Ec, Er.
    rewrite (IH _ _ _ _ E), last_error_cons, <- app_assoc. simpl.
    now rewrite Nat.add_succ_r.
Qed.

(** The loop only appends to the list of attempted identifiers. *)
Lemma tryModels_attempts_extend pol call models k lastError attempts :
  exists tail,
    attempts_of (tryModels pol call k models lastError attempts) = (attempts ++ tail)%list.
Proof.
  revert k lastError attempts.
  induction models as [|m ms IH]; intros k lastError attempts; simpl.
  - exists []. now rewrite app_nil_r.
  - destruct (call k m) as [r|e].
    + now exists [m].
    + destruct (retryable pol e).
      * destruct (IH (S k) (Some e) (attempts ++ [m])%list) as [tail E].
        exists (m :: tail). rewrite E, <- app_assoc. reflexivity.
      * destruct (on_fatal pol); now exists [m].
Qed.

(** The identifier at the head of the list is always attempted. *)
Lemma tryModels_attempts_head pol call m ms k lastError attempts :
  attempts_of (tryModels pol call k (m :: ms) lastError attempts)
    !! length attempts = Some m.
Proof.
  simpl. destruct (call k m) as [r|e].
  - simpl. now rewrite lookup_app_r, Nat.sub_diag by lia.
  - destruct (retryable pol e).
    + destruct (tryModels_attempts_extend pol call ms (S k) (Some e)
                  (attempts ++ [m])%list) as [tail E].
      rewrite E, <- app_assoc. now rewrite lookup_app_r, Nat.sub_diag by lia.
    + destruct (on_fatal pol); simpl;
        now rewrite lookup_app_r, Nat.sub_diag by lia.
Qed.

(** When every call fails with a retried error the loop ends with all
    identifiers attempted, no result, and the last error. *)
Lemma invoke_all_retried pol call models errs :
  retried_errors pol call 0 models = Some errs ->
  invoke pol call models = Finished None (last_error errs None) models.
Proof.
  intros H. unfold invoke.
  rewrite <- (app_nil_r models) at 1.
  rewrite (tryModels_skip _ _ _ _ _ _ _ _ H). reflexivity.
Qed.

(** The first success ends the loop, whatever the policy. *)
Lemma invoke_success_after_retries pol call pre m post errs (X : R) :
  retried_errors pol call 0 pre = Some errs ->
  call (length pre) m = Success X ->
  invoke pol call (pre ++ m :: post) =
  Finished (Some X) (last_error errs None) (pre ++ [m]).
Proof.
  intros H Hc. unfold invoke.
  rewrite (tryModels_skip _ _ _ _ _ _ _ _ H). simpl. now rewrite Hc.
Qed.

(** An error that is not retried ends the loop. *)
Lemma invoke_fatal_after_retries pol call pre m post errs e :
  retried_errors pol call 0 pre = Some errs ->
  call (length pre) m = Failure e ->
  retryable pol e = false ->
  invoke pol call (pre ++ m :: post) =
  match on_fatal pol with
  | Break => Finished None (Some e) (pre ++ [m])
  | Throw => Threw e (pre ++ [m])
  end.
Proof.
  intros H Hc Hr. unfold invoke.
  rewrite (tryModels_skip _ _ _ _ _ _ _ _ H). simpl. now rewrite Hc, Hr.
Qed.

(** The statuses each handler retries. *)
Lemma status_is_Some (e : ApiError) (c : Z) :
  status_is (Some e) c = true <-> status e = Some c.
Proof.
  unfold status_is. destruct e as [[s|] msg]; simpl.
  - rewrite Z.eqb_eq. split; congruence.
  - split; discriminate.
Qed.

Lemma generate_retryable_iff (e : ApiError) :
  retryable generate_policy e = true <->
  status e = Some 503 \/ status e = Some 404 \/ status e = Some 400.
Proof.
  unfold generate_policy, describe_policy; cbn [retryable].
  rewrite !orb_true_iff, !status_is_Some. tauto.
Qed.

Lemma describe_retryable_iff (e : ApiError) :
  retryable describe_policy e = true <->
  status e = Some 503 \/ status e = Some 429 \/
  status e = Some 404 \/ status e = Some 400.
Proof.
  unfold generate_policy, describe_policy; cbn [retryable].
  rewrite !orb_true_iff, !status_is_Some. tauto.
Qed.

Lemma tts_retryable_iff (e : ApiError) :
  retryable tts_policy e = true <-> status e <> Some 401.
Proof.
  unfold tts_policy; cbn [retryable]. destruct (status_is (Some e) 401) eqn:E.
  - apply status_is_Some in E. split; [discriminate | congruence].
  - assert (status e <> Some 401) by (rewrite <- status_is_Some; congruence).
    destruct (status_is (Some e) 404); tauto.
Qed.

Lemma status_is_other (e : ApiError) (c c' : Z) :
  status e = Some c -> c <> c' -> status_is (Some e) c' = false.
Proof.
  intros H Hne. destruct (status_is (Some e) c') eqn:E; [|reflexivity].
  apply status_is_Some in E. congruence.
Qed.

Lemma last_error_last (errs : list ApiError) (e : ApiError) (init : option ApiError) :
  last errs = Some e -> last_error errs init = Some e.
Proof. unfold last_error. now intros ->. Qed.

End InvokerFacts.

(** *** Which failures make a loop go on *)

(** C1, as amended: after calls that were all retried, when the call made
    with [m] fails with error [e], the next identifier is attempted
    exactly when the handler's policy retries [e]; and
    [api/generate] retries exactly the statuses 503, 404 and 400,
    [api/describe] exactly 503, 429, 404 and 400, and [api/tts] every
    error whose status is not 401 (404 among them). *)
Theorem C1_next_attempted_iff_retryable {R : Type} (pol : Policy)
    (call : nat -> string -> Outcome R) (pre post : list string)
    (m next : string) (errs : list ApiError) (e : ApiError) :
  retried_errors pol call 0 pre = Some errs ->
  call (length pre) m = Failure e ->
  (attempts_of (invoke pol call (pre ++ m :: next :: post)) !! S (length pre)
     = Some next <-> retryable pol e = true) /\
  (retryable generate_policy e = true <->
     status e = Some 503 \/ status e = Some 404 \/ status e = Some 400) /\
  (retryable describe_policy e = true <->
     status e = Some 503 \/ status e = Some 429 \/
     status e = Some 404 \/ status e = Some 400) /\
  (retryable tts_policy e = true <-> status e <> Some 401).
Proof.
  intros Hpre Hcall.
  split; [|split; [apply generate_retryable_iff|
                   split; [apply describe_retryable_iff|apply tts_retryable_iff]]].
  destruct (retryable pol e) eqn:Hr.
  - split; [reflexivity|intros _].
    pose proof (retried_errors_snoc pol call pre m 0 errs e Hpre Hcall Hr) as H1.
    unfold invoke.
    replace (pre ++ m :: next :: post)%list
      with ((pre ++ [m]) ++ next :: post)%list by now rewrite <- app_assoc.
    rewrite (tryModels_skip _ _ _ _ _ _ _ _ H1).
    replace (S (length pre)) with (length ([] ++ pre ++ [m])%list)
      by (simpl; rewrite length_app; simpl; lia).
    apply tryModels_attempts_head.
  - split; [|discriminate]. intros H.
    rewrite (invoke_fatal_after_retries _ _ _ _ _ _ _ Hpre Hcall Hr) in H.
    assert (attempts_of
              (match on_fatal pol with
               | Break => Finished None (Some e) (pre ++ [m])%list
               | Throw => @Threw R e (pre ++ [m])%list
               end) = (pre ++ [m])%list) as E by now destruct (on_fatal pol).
    rewrite E in H. apply lookup_lt_Some in H.
    rewrite length_app in H. simpl in H. lia.
Qed.

Lemma C1_next_attempted_iff_retryable_witness :
  attempts_of
    (invoke tts_policy
       (fun k _ => if (k =? 0)%nat
                   then Failure (mkError (Some 500) "Internal Server Error")
                   else Success "audio")
       ["eleven_turbo_v2_5"; "eleven_turbo_v2"; "eleven_multilingual_v2"])
    !! 1%nat = Some "eleven_turbo_v2".
Proof.
  apply (C1_next_attempted_iff_retryable tts_policy
           (fun k _ => if (k =? 0)%nat
                       then Failure (mkError (Some 500) "Internal Server Error")
                       else Success "audio")
           [] ["eleven_multilingual_v2"] "eleven_turbo_v2_5" "eleven_turbo_v2"
           [] (mkError (Some 500) "Internal Server Error"));
    reflexivity.
Defined.

(** C1 as stated fails: status 429 is not among 503, 404 and 400, yet
    [api/describe] goes on to the second identifier after a 429; and
    [api/tts] goes on after a 500. *)
Lemma C1_counterexample :
  spec_retryable (mkError (Some 429) "Too Many Requests") = false /\
  attempts_of
    (invoke describe_policy
       (fun _ _ => @Failure unit (mkError (Some 429) "Too Many Requests"))
       ["a"; "b"]) = ["a"; "b"] /\
  spec_retryable (mkError (Some 500) "Internal Server Error") = false /\
  attempts_of
    (invoke tts_policy
       (fun _ _ => @Failure unit (mkError (Some 500) "Internal Server Error"))
       ["a"; "b"]) = ["a"; "b"].
Proof. repeat split. Qed.

(** *** A fatal failure *)




(** *** Success after retries *)

(** C5: when the calls made with the identifiers of [pre] all fail with
    retried errors and the next call, made with [m], returns [X], the
    loop of [api/generate] ends with [X]; the identifiers attempted are
    those of [pre] and then [m], so one attempt per position up to the
    successful one and none after it. With [post] empty this is a list
    of length N whose N-th attempt succeeds. *)
Theorem C5_success_after_retries {R : Type}
    (call : nat -> string -> Outcome R) (pre post : list string) (m : string)
    (errs : list ApiError) (X : R) :
  retried_errors generate_policy call 0 pre = Some errs ->
  call (length pre) m = Success X ->
  generate_invoke call (pre ++ m :: post) = inl X /\
  attempts_of (invoke generate_policy call (pre ++ m :: post)) = (pre ++ [m])%list /\
  length (attempts_of (invoke generate_policy call (pre ++ m :: post)))
    = S (length pre).
Proof.
  intros Hpre Hcall. unfold generate_invoke.
  rewrite (invoke_success_after_retries _ _ _ _ _ _ _ Hpre Hcall). simpl.
  repeat split. rewrite length_app. simpl. lia.
Qed.

(** The scenario of the specification: the first model is overloaded,
    the second answers. *)
Lemma C5_success_after_retries_witness :
  let call := fun (k : nat) (_ : string) =>
                if (k =? 0)%nat
                then Failure (mkError (Some 503) "The model is overloaded")
                else Success "ok" in
  generate_invoke call ["gemini-1.5-flash"; "gemini-1.5-pro"] = inl "ok" /\
  attempts_of (invoke generate_policy call ["gemini-1.5-flash"; "gemini-1.5-pro"])
    = ["gemini-1.5-flash"; "gemini-1.5-pro"] /\
  length (attempts_of
            (invoke generate_policy call ["gemini-1.5-flash"; "gemini-1.5-pro"]))
    = 2%nat.
Proof.
  intros call.
  apply (C5_success_after_retries call ["gemini-1.5-flash"] [] "gemini-1.5-pro"
           [mkError (Some 503) "The model is overloaded"] "ok");
    reflexivity.
Defined.

(** *** Every candidate exhausted *)

(** C3, as amended: let every call fail with a retried error, the last of
    them being [e]. Then all identifiers were attempted and the handler
    ends with an error. In [api/generate] the thrown message, and in
    [api/describe] the [error] of the response, begins with the
    overloaded text when [e] has status 503 and with the not-found text
    when it has status 404, and in both cases contains every candidate
    identifier. When [e] has status 400 the message is the error's own
    message (after "API Error: " in [api/generate]), and when it has
    status 429 in [api/describe] it is the fixed rate-limit text. *)
Theorem C3_terminal_error_after_retries {R : Type}
    (call : nat -> string -> Outcome R) (models : list string)
    (errs : list ApiError) (e : ApiError) :
  last errs = Some e ->
  (retried_errors generate_policy call 0 models = Some errs ->
   exists msg,
     generate_invoke call models = inr (mkError None msg) /\
     attempts_of (invoke generate_policy call models) = models /\
     (status e = Some 503 ->
        String.prefix "All models are currently overloaded" msg = true /\
        forall m, In m models -> includes msg m = true) /\
     (status e = Some 404 ->
        String.prefix "No available models found" msg = true /\
        forall m, In m models -> includes msg m = true) /\
     (status e = Some 400 ->
        msg = "API Error: " ++ or_else (message e) "Unknown error")) /\
  (retried_errors describe_policy call 0 models = Some errs ->
   exists resp,
     describe_invoke call models = inr resp /\
     attempts_of (invoke describe_policy call models) = models /\
     (status e = Some 503 ->
        code resp = 503 /\
        String.prefix "All models are currently overloaded" (error resp) = true /\
        forall m, In m models -> includes (error resp) m = true) /\
     (status e = Some 404 ->
        code resp = 404 /\
        String.prefix "No available models found" (error resp) = true /\
        forall m, In m models -> includes (error resp) m = true) /\
     (status e = Some 429 ->
        resp = mkResponse 429
                 "Rate limit exceeded. All models are currently rate-limited. Please try again in a few minutes.") /\
     (status e = Some 400 ->
        resp = mkResponse 500 (or_else (message e) "Unknown error occurred"))).
Proof.
  intros Hlast. split; intros Hall.
  - exists (generate_terminal_message models (Some e)).
    unfold generate_invoke.
    rewrite (invoke_all_retried _ _ _ _ Hall), (last_error_last _ _ _ Hlast).
    split; [reflexivity|]. split; [reflexivity|].
    unfold generate_terminal_message.
    split; [|split]; intros Hst.
    + rewrite (proj2 (status_is_Some e 503) Hst).
      split; [reflexivity|]. intros m Hm.
      rewrite <- (append_empty_r (join ", " models)).
      now apply includes_around_join.
    + rewrite (status_is_other e 404 503 Hst) by lia.
      rewrite (proj2 (status_is_Some e 404) Hst).
      split; [reflexivity|]. intros m Hm.
      now apply includes_around_join.
    + rewrite (status_is_other e 400 503 Hst), (status_is_other e 400 404 Hst),
        (status_is_other e 400 401 Hst), (status_is_other e 400 429 Hst) by lia.
      reflexivity.
  - exists (describe_terminal_response models (Some e)).
    unfold describe_invoke.
    rewrite (invoke_all_retried _ _ _ _ Hall), (last_error_last _ _ _ Hlast).
    split; [reflexivity|]. split; [reflexivity|].
    unfold describe_terminal_response.
    split; [|split; [|split]]; intros Hst.
    + rewrite (status_is_other e 503 429 Hst) by lia.
      rewrite (proj2 (status_is_Some e 503) Hst). cbn [code error].
      split; [reflexivity|]. split; [reflexivity|]. intros m Hm.
      rewrite <- (append_empty_r (join ", " models)).
      now apply includes_around_join.
    + rewrite (status_is_other e 404 429 Hst), (status_is_other e 404 503 Hst) by lia.
      rewrite (proj2 (status_is_Some e 404) Hst). cbn [code error].
      split; [reflexivity|]. split; [reflexivity|]. intros m Hm.
      now apply includes_around_join.
    + now rewrite (proj2 (status_is_Some e 429) Hst).
    + rewrite (status_is_other e 400 429 Hst), (status_is_other e 400 503 Hst),
        (status_is_other e 400 404 Hst) by lia.
      reflexivity.
Qed.

Lemma C3_terminal_error_after_retries_witness :
  let e := mkError (Some 503) "The model is overloaded" in
  let call := fun (_ : nat) (_ : string) => @Failure unit e in
  let models := ["gemini-1.5-flash"; "gemini-1.5-pro"] in
  (exists msg,
     generate_invoke call models = inr (mkError None msg) /\
     includes msg "gemini-1.5-flash" = true /\
     includes msg "gemini-1.5-pro" = true) /\
  (exists resp,
     describe_invoke call models = inr resp /\
     includes (error resp) "gemini-1.5-flash" = true /\
     includes (error resp) "gemini-1.5-pro" = true).
Proof.
  intros e call models.
  destruct (C3_terminal_error_after_retries call models [e; e] e eq_refl)
    as [Hg Hd].
  split.
  - destruct (Hg eq_refl) as (msg & E & _ & H503 & _).
    destruct (H503 eq_refl) as [_ Hin].
    exists msg. split; [exact E|].
    split; apply Hin; simpl; tauto.
  - destruct (Hd eq_refl) as (resp & E & _ & H503 & _).
    destruct (H503 eq_refl) as (_ & _ & Hin).
    exists resp. split; [exact E|].
    split; apply Hin; simpl; tauto.
Defined.

(** C3 as stated fails: when every call fails with HTTP 400, which
    [api/generate] retries, its terminal message names no candidate; and
    when every call fails with HTTP 429, which [api/describe] retries,
    neither does the response of [api/describe]. *)
Lemma C3_counterexample :
  let models := ["gemini-1.5-flash"; "gemini-1.5-pro"] in
  let e400 := mkError (Some 400) "Bad Request" in
  let e429 := mkError (Some 429) "Too Many Requests" in
  retried_errors generate_policy (fun _ _ => @Failure unit e400) 0 models
    = Some [e400; e400] /\
  generate_invoke (fun _ _ => @Failure unit e400) models
    = inr (mkError None "API Error: Bad Request") /\
  includes "API Error: Bad Request" "gemini-1.5-flash" = false /\
  retried_errors describe_policy (fun _ _ => @Failure unit e429) 0 models
    = Some [e429; e429] /\
  (exists resp,
     describe_invoke (fun _ _ => @Failure unit e429) models = inr resp /\
     code resp = 429 /\
     includes (error resp) "gemini-1.5-flash" = false /\
     includes (error resp) "gemini-1.5-pro" = false).
Proof.
  intros models e400 e429.
  split; [reflexivity|]. split; [reflexivity|]. split; [reflexivity|].
  split; [reflexivity|].
  eexists. split; [reflexivity|]. repeat split.
Qed.

(** A status 401 in [api/describe]: the loop breaks, and the response
    built after it carries the error's message under HTTP 500. *)
Lemma describe_response_after_401 {R : Type}
    (call : nat -> string -> Outcome R) (m : string) (post : list string)
    (e : ApiError) :
  call 0%nat m = Failure e ->
  status e = Some 401 ->
  describe_invoke call (m :: post) =
  inr (mkResponse 500 (or_else (message e) "Unknown error occurred")).
Proof.
  intros Hc Hst. unfold describe_invoke, invoke. cbn [tryModels]. rewrite Hc.
  assert (retryable describe_policy e = false) as ->.
  { destruct (retryable describe_policy e) eqn:E; [|reflexivity].
    apply describe_retryable_iff in E. rewrite Hst in E.
    destruct E as [E|[E|[E|E]]]; discriminate. }
  cbn [on_fatal describe_policy]. unfold describe_terminal_response.
  now rewrite (status_is_other e 401 429 Hst), (status_is_other e 401 503 Hst),
    (status_is_other e 401 404 Hst) by lia.
Qed.

(** A status 401 in [api/tts]: the loop breaks and the answer is the
    HTTP 401 response. *)
Lemma tts_response_after_401 {R : Type}
    (call : nat -> string -> Outcome R) (m : string) (post : list string)
    (e : ApiError) :
  call 0%nat m = Failure e ->
  status e = Some 401 ->
  tts_invoke call (m :: post) =
  TtsUnauthorized
    (mkResponse 401 "Authentication failed: Invalid ElevenLabs API key").
Proof.
  intros Hc Hst. unfold tts_invoke, invoke. cbn [tryModels]. rewrite Hc.
  assert (retryable tts_policy e = false) as ->.
  { destruct (retryable tts_policy e) eqn:E; [|reflexivity].
    apply tts_retryable_iff in E. congruence. }
  cbn [on_fatal tts_policy].
  now rewrite (proj2 (status_is_Some e 401) Hst).
Qed.

(** ** The image cache *)

Section CacheFacts.

Context `{B : Browser}.
Implicit Types (name cached : string) (now : Z) (ls : Storage).

Lemma eqb_empty_false (x : string) : x <> EmptyString -> String.eqb x EmptyString = false.
Proof. intros H. now apply String.eqb_neq. Qed.

Lemma version_mismatch_false_iff (d : CachedImage) :
  version_mismatch d = false <-> version d = Some CACHE_VERSION.
Proof.
  unfold version_mismatch. destruct (version d) as [v|].
  - rewrite negb_false_iff, String.eqb_eq. split; congruence.
  - split; discriminate.
Qed.

(** Nothing stored under the name: a miss, and the storage is untouched. *)
Lemma getCachedImage_absent name now ls :
  ls !! (CACHE_PREFIX ++ name) = None -> getCachedImage name now ls = (None, ls).
Proof.
  intros H. unfold getCachedImage. destruct (negb window_defined); [reflexivity|].
  now rewrite H.
Qed.

(** A text that cannot be read as an object: a miss, and the storage is
    untouched. *)
Lemma getCachedImage_unreadable name now ls cached :
  ls !! (CACHE_PREFIX ++ name) = Some cached ->
  JSON_parse cached = SyntaxError \/ JSON_parse cached = JsonNull ->
  getCachedImage name now ls = (None, ls).
Proof.
  intros Hl Hp. unfold getCachedImage.
  destruct (negb window_defined); [reflexivity|]. rewrite Hl.
  destruct (String.eqb cached EmptyString); [reflexivity|].
  now destruct Hp as [-> | ->].
Qed.

(** What a read of a readable entry does, in a browser. *)
Lemma getCachedImage_readable name now ls cached (d : CachedImage) :
  window_defined = true ->
  ls !! (CACHE_PREFIX ++ name) = Some cached ->
  cached <> EmptyString ->
  JSON_parse cached = JsonValue d ->
  getCachedImage name now ls =
  if version_mismatch d || expired now d
  then (None, delete (CACHE_PREFIX ++ name) ls)
  else (url d, ls).
Proof.
  intros Hw Hl Hne Hp. unfold getCachedImage, removeItem.
  rewrite Hw, Hl, (eqb_empty_false _ Hne), Hp. simpl negb. cbv iota.
  now destruct (version_mismatch d), (expired now d).
Qed.

(** An entry of the current version without a numeric [timestamp] never
    expires: the comparison with [NaN] is false. *)
Lemma getCachedImage_without_timestamp name now ls cached (d : CachedImage) :
  window_defined = true ->
  ls !! (CACHE_PREFIX ++ name) = Some cached ->
  cached <> EmptyString ->
  JSON_parse cached = JsonValue d ->
  version d = Some CACHE_VERSION ->
  timestamp d = None ->
  getCachedImage name now ls = (url d, ls).
Proof.
  intros Hw Hl Hne Hp Hv Ht.
  rewrite (getCachedImage_readable name now ls cached d Hw Hl Hne Hp).
  apply version_mismatch_false_iff in Hv. rewrite Hv.
  unfold expired. now rewrite Ht.
Qed.

(** A read changes the storage only by removing the entry it read, and
    only when that entry has another version or is expired. *)
Lemma getCachedImage_removes_only_stale name now ls :
  (getCachedImage name now ls).2 <> ls ->
  exists cached d,
    ls !! (CACHE_PREFIX ++ name) = Some cached /\
    JSON_parse cached = JsonValue d /\
    (version_mismatch d = true \/ expired now d = true) /\
    getCachedImage name now ls = (None, delete (CACHE_PREFIX ++ name) ls).
Proof.
  unfold getCachedImage, removeItem.
  destruct (negb window_defined); [simpl; congruence|].
  destruct (ls !! (CACHE_PREFIX ++ name)) as [cached|] eqn:Hl; [|simpl; congruence].
  destruct (String.eqb cached EmptyString); [simpl; congruence|].
  destruct (JSON_parse cached) as [| |d] eqn:Hp; try (simpl; congruence).
  destruct (version_mismatch d) eqn:Hv.
  - intros _. exists cached, d. tauto.
  - destruct (expired now d) eqn:He; [|simpl; congruence].
    intros _. exists cached, d. tauto.
Qed.

End CacheFacts.

(** C6, as amended: for an entry stored under the name, with url [u],
    creation time [t] and version [v], a read at time [now] returns [u]
    and leaves the storage as it is when [v] is the current version and
    [now - t <= TTL]; otherwise it returns nothing and removes the entry.
    The TTL is 7 days, and an entry of age TTL + 1 ms is removed. *)
Theorem C6_read_fresh_or_evict (B : Browser) (name cached u : string)
    (now t : Z) (v : option string) (ls : Storage) :
  window_defined = true ->
  ls !! (CACHE_PREFIX ++ name) = Some cached ->
  cached <> EmptyString ->
  JSON_parse cached = JsonValue (mkCachedImage (Some u) (Some t) v) ->
  (v = Some CACHE_VERSION /\ now - t <= CACHE_EXPIRY_MS ->
     getCachedImage name now ls = (Some u, ls)) /\
  (~ (v = Some CACHE_VERSION /\ now - t <= CACHE_EXPIRY_MS) ->
     getCachedImage name now ls = (None, delete (CACHE_PREFIX ++ name) ls)) /\
  (now - t = CACHE_EXPIRY_MS + 1 ->
     getCachedImage name now ls = (None, delete (CACHE_PREFIX ++ name) ls)) /\
  CACHE_EXPIRY_MS = 7 * 24 * 60 * 60 * 1000.
Proof.
  intros Hw Hl Hne Hp.
  rewrite (getCachedImage_readable name now ls cached _ Hw Hl Hne Hp).
  set (d := mkCachedImage (Some u) (Some t) v).
  assert (expired now d = true <-> CACHE_EXPIRY_MS < now - t) as He.
  { unfold expired, d. simpl. rewrite Z.gtb_ltb. apply Z.ltb_lt. }
  pose proof (version_mismatch_false_iff d) as Hv. simpl version in Hv.
  assert (~ (v = Some CACHE_VERSION /\ now - t <= CACHE_EXPIRY_MS) ->
          version_mismatch d || expired now d = true) as Hstale.
  { intros Hn. destruct (version_mismatch d) eqn:E1; [reflexivity|].
    destruct (expired now d) eqn:E2; [reflexivity|]. exfalso. apply Hn.
    split; [now apply Hv|].
    destruct (Z.le_gt_cases (now - t) CACHE_EXPIRY_MS) as [|Hgt]; [assumption|].
    apply He in Hgt. congruence. }
  split; [|split; [|split]].
  - intros [Hver Hage].
    apply Hv in Hver. rewrite Hver.
    destruct (expired now d) eqn:E; [|reflexivity].
    pose proof (proj1 He eq_refl). lia.
  - intros Hn. now rewrite (Hstale Hn).
  - intros Hage. rewrite Hstale; [reflexivity|]. intros [_ Hle]. lia.
  - reflexivity.
Qed.

(** The scenario of the specification: key [push-ups], written at [t0]
    under version [v2], read 8 days later: nothing is returned and the
    entry is removed. *)
Lemma C6_read_fresh_or_evict_witness :
  let t0 := 1700000000000 in
  let ls := @setCachedImage MiniJson.browser "push-ups" "https://img.example/p.jpg" t0 ∅ in
  @getCachedImage MiniJson.browser "push-ups" (t0 + 8 * 24 * 60 * 60 * 1000) ls
    = (None, delete (CACHE_PREFIX ++ "push-ups") ls).
Proof.
  intros t0 ls.
  refine (proj1 (proj2
           (C6_read_fresh_or_evict MiniJson.browser "push-ups"
              (MiniJson.stringify (fresh_entry "https://img.example/p.jpg" t0))
              "https://img.example/p.jpg" (t0 + 8 * 24 * 60 * 60 * 1000) t0
              (Some "v2") ls _ _ _ _)) _).
  - reflexivity.
  - vm_compute. reflexivity.
  - vm_compute. discriminate.
  - vm_compute. reflexivity.
  - intros [_ Hage]. vm_compute in Hage. apply Hage. reflexivity.
Defined.

(** C6 as stated fails at the boundary: for an entry whose age is exactly
    the TTL, [now - createdAt < TTL] does not hold, yet the read returns
    the url and keeps the entry. *)
Lemma C6_counterexample :
  let t0 := 1700000000000 in
  let now := t0 + CACHE_EXPIRY_MS in
  let ls := @setCachedImage MiniJson.browser "push-ups" "https://img.example/p.jpg" t0 ∅ in
  ~ (now - t0 < CACHE_EXPIRY_MS) /\
  @JSON_parse MiniJson.browser
    (default EmptyString (ls !! (CACHE_PREFIX ++ "push-ups")))
    = JsonValue (mkCachedImage (Some "https://img.example/p.jpg") (Some t0)
                               (Some CACHE_VERSION)) /\
  @getCachedImage MiniJson.browser "push-ups" now ls
    = (Some "https://img.example/p.jpg", ls).
Proof.
  intros t0 now ls. split; [|split].
  - vm_compute. discriminate.
  - vm_compute. reflexivity.
  - vm_compute. reflexivity.
Qed.

(** C8: in a browser, when [setItem] succeeds and [JSON.parse] reads
    back what [JSON.stringify] wrote, [setCachedImage(k, v)] followed at
    the same instant by [getCachedImage(k)] returns [v], and the read
    leaves the written storage as it is. *)
Theorem C8_write_then_read (B : Browser) (k v : string) (now : Z) (ls : Storage) :
  window_defined = true ->
  quota_ok (CACHE_PREFIX ++ k) (JSON_stringify (fresh_entry v now)) ls = true ->
  JSON_stringify (fresh_entry v now) <> EmptyString ->
  JSON_parse (JSON_stringify (fresh_entry v now)) = JsonValue (fresh_entry v now) ->
  getCachedImage k now (setCachedImage k v now ls)
    = (Some v, setCachedImage k v now ls).
Proof.
  intros Hw Hq Hne Hp.
  assert (setCachedImage k v now ls
          = <[CACHE_PREFIX ++ k := JSON_stringify (fresh_entry v now)]> ls) as E.
  { unfold setCachedImage, setItem. now rewrite Hw, Hq. }
  rewrite E.
  rewrite (getCachedImage_readable k now _ _ _ Hw (lookup_insert_eq _ _ _) Hne Hp).
  assert (version_mismatch (fresh_entry v now) = false) as ->
    by (apply version_mismatch_false_iff; reflexivity).
  assert (expired now (fresh_entry v now) = false) as ->.
  { unfold expired. simpl. rewrite Z.sub_diag. reflexivity. }
  reflexivity.
Qed.

Lemma C8_write_then_read_witness :
  @getCachedImage MiniJson.browser "push-ups" 1700000000000
    (@setCachedImage MiniJson.browser "push-ups" "https://img.example/p.jpg"
       1700000000000 ∅)
  = (Some "https://img.example/p.jpg",
     @setCachedImage MiniJson.browser "push-ups" "https://img.example/p.jpg"
       1700000000000 ∅).
Proof.
  apply (C8_write_then_read MiniJson.browser "push-ups"
           "https://img.example/p.jpg" 1700000000000 ∅).
  - reflexivity.
  - reflexivity.
  - vm_compute. discriminate.
  - vm_compute. reflexivity.
Defined.

(** C10, as amended: when the text stored under the name cannot be read
    ([JSON.parse] throws, or gives [null], so that the first property
    read throws), [getCachedImage] returns nothing and leaves the storage
    exactly as it is, at every time; so do any number of further reads,
    and the text is still stored after them. A read that does change the
    storage removes an entry it could parse, whose version differs or
    which is expired; and in a browser a text that parses to a value
    without the current version is removed. *)
Theorem C10_corrupt_entry_kept (B : Browser) (name cached : string) (ls : Storage) :
  ls !! (CACHE_PREFIX ++ name) = Some cached ->
  JSON_parse cached = SyntaxError \/ JSON_parse cached = JsonNull ->
  (forall now, getCachedImage name now ls = (None, ls)) /\
  (forall times,
     readMany name times ls = (List.map (fun _ => None) times, ls) /\
     (readMany name times ls).2 !! (CACHE_PREFIX ++ name) = Some cached) /\
  (forall name' now' ls',
     (getCachedImage name' now' ls').2 <> ls' ->
     exists cached' d,
       ls' !! (CACHE_PREFIX ++ name') = Some cached' /\
       JSON_parse cached' = JsonValue d /\
       (version_mismatch d = true \/ expired now' d = true) /\
       getCachedImage name' now' ls'
         = (None, delete (CACHE_PREFIX ++ name') ls')) /\
  (forall name' now' ls' cached' d,
     window_defined = true ->
     ls' !! (CACHE_PREFIX ++ name') = Some cached' ->
     cached' <> EmptyString ->
     JSON_parse cached' = JsonValue d ->
     version d <> Some CACHE_VERSION ->
     getCachedImage name' now' ls'
       = (None, delete (CACHE_PREFIX ++ name') ls')).
Proof.
  intros Hl Hp.
  assert (forall now, getCachedImage name now ls = (None, ls)) as Hread
    by (intros now; eapply getCachedImage_unreadable; eauto).
  split; [exact Hread|]. split; [|split].
  - assert (forall times,
              readMany name times ls = (List.map (fun _ => None) times, ls)) as Hmany.
    { induction times as [|t ts IH]; [reflexivity|].
      simpl. rewrite Hread, IH. reflexivity. }
    intros times. split; [apply Hmany|]. now rewrite Hmany.
  - intros name' now' ls'. apply getCachedImage_removes_only_stale.
  - intros name' now' ls' cached' d Hw Hl' Hne Hp' Hv.
    rewrite (getCachedImage_readable name' now' ls' cached' d Hw Hl' Hne Hp').
    destruct (version_mismatch d) eqn:E; [reflexivity|].
    apply version_mismatch_false_iff in E. contradiction.
Qed.

Lemma C10_corrupt_entry_kept_witness :
  let ls : Storage := {[ (CACHE_PREFIX ++ "push-ups") := "{oops" ]} in
  let ls' : Storage := {[ (CACHE_PREFIX ++ "squats") := "{}" ]} in
  @getCachedImage MiniJson.browser "push-ups" 1700000000000 ls = (None, ls) /\
  @readMany MiniJson.browser "push-ups" [1700000000000; 1800000000000] ls
    = ([None; None], ls) /\
  @getCachedImage MiniJson.browser "squats" 1700000000000 ls'
    = (None, delete (CACHE_PREFIX ++ "squats") ls').
Proof.
  intros ls ls'.
  destruct (C10_corrupt_entry_kept MiniJson.browser "push-ups" "{oops" ls)
    as (H1 & H2 & _ & H4).
  - vm_compute. reflexivity.
  - left. vm_compute. reflexivity.
  - split; [apply H1 | split; [apply H2|]].
    apply (H4 "squats" 1700000000000 ls' "{}" (mkCachedImage None None None)).
    + reflexivity.
    + vm_compute. reflexivity.
    + discriminate.
    + reflexivity.
    + discriminate.
Defined.

(** C10 as stated fails for texts that are JSON but not of the expected
    shape. The text of an empty object is removed by the read, as an
    entry of another version; and an entry with the current version and
    no timestamp is returned, not missed. *)
Lemma C10_counterexample :
  let key := CACHE_PREFIX ++ "push-ups" in
  let noTimestamp :=
    "{" ++ dq ++ "url" ++ dq ++ ":" ++ dq ++ "https://img.example/p.jpg" ++ dq ++
    "," ++ dq ++ "version" ++ dq ++ ":" ++ dq ++ "v2" ++ dq ++ "}" in
  let ls1 : Storage := {[ key := "{}" ]} in
  let ls2 : Storage := {[ key := noTimestamp ]} in
  (@JSON_parse MiniJson.browser "{}" = JsonValue (mkCachedImage None None None) /\
   @getCachedImage MiniJson.browser "push-ups" 1700000000000 ls1 = (None, ∅) /\
   ls1 <> ∅) /\
  (@JSON_parse MiniJson.browser noTimestamp
     = JsonValue (mkCachedImage (Some "https://img.example/p.jpg") None (Some "v2")) /\
   @getCachedImage MiniJson.browser "push-ups" 1700000000000 ls2
     = (Some "https://img.example/p.jpg", ls2)).
Proof.
  intros key noTimestamp ls1 ls2. split; [split; [|split]|split].
  - reflexivity.
  - vm_compute. reflexivity.
  - intros H. assert (ls1 !! key = (∅ : Storage) !! key) as E by now rewrite H.
    vm_compute in E. discriminate.
  - vm_compute. reflexivity.
  - vm_compute. reflexivity.
Qed.

(** * Further properties of the loops *)

Section LoopFacts.

Context {R : Type}.
Implicit Types (pol : Policy) (call : nat -> string -> Outcome R).

Lemma tryModels_attempts_prefix pol call models k lastError attempts :
  exists rest,
    (attempts ++ models)%list =
    (attempts_of (tryModels pol call k models lastError attempts) ++ rest)%list.
Proof.
  revert k lastError attempts.
  induction models as [|m ms IH]; intros k lastError attempts; simpl.
  - now exists [].
  - destruct (call k m) as [r|e].
    + exists ms. simpl. now rewrite <- app_assoc.
    + destruct (retryable pol e).
      * destruct (IH (S k) (Some e) (attempts ++ [m])%list) as [rest E].
        exists rest. rewrite <- E, <- app_assoc. reflexivity.
      * exists ms. destruct (on_fatal pol); simpl; now rewrite <- app_assoc.
Qed.

Lemma tryModels_result_inv pol call models k lastError attempts r le att :
  tryModels pol call k models lastError attempts = Finished (Some r) le att ->
  exists pre m post errs,
    models = (pre ++ m :: post)%list /\
    att = (attempts ++ pre ++ [m])%list /\
    retried_errors pol call k pre = Some errs /\
    call (k + length pre)%nat m = Success r /\
    le = last_error errs lastError.
Proof.
  revert k lastError attempts.
  induction models as [|m ms IH]; intros k lastError attempts H; simpl in H.
  - discriminate.
  - destruct (call k m) as [r0|e] eqn:Ec.
    + inversion H; subst. exists [], m, ms, [].
      simpl. rewrite Nat.add_0_r. auto.
    + destruct (retryable pol e) eqn:Er.
      * destruct (IH _ _ _ H) as (pre & m' & post & errs & -> & -> & Hre & Hc & ->).
        exists (m :: pre), m', post, (e :: errs). simpl.
        rewrite Ec, Er, Hre, <- app_assoc, last_error_cons.
        rewrite Nat.add_succ_r. auto.
      * destruct (on_fatal pol); discriminate.
Qed.

Lemma tryModels_error_inv pol call models k lastError attempts e att :
  tryModels pol call k models lastError attempts = Finished None (Some e) att \/
  tryModels pol call k models lastError attempts = Threw e att ->
  (models = [] /\ lastError = Some e /\ att = attempts) \/
  exists pre m post errs,
    models = (pre ++ m :: post)%list /\
    att = (attempts ++ pre ++ [m])%list /\
    retried_errors pol call k pre = Some errs /\
    call (k + length pre)%nat m = Failure e /\
    (retryable pol e = true -> post = []).
Proof.
  revert k lastError attempts.
  induction models as [|m ms IH]; intros k lastError attempts H; simpl in H.
  - left. destruct H as [H|H]; [|discriminate]. inversion H. auto.
  - right. destruct (call k m) as [r0|e0] eqn:Ec.
    + destruct H as [H|H]; discriminate.
    + destruct (retryable pol e0) eqn:Er.
      * destruct (IH _ _ _ H) as [(-> & He & ->)|
          (pre & m' & post & errs & -> & -> & Hre & Hc & Hpost)].
        -- inversion He; subst. exists [], m, [], []. simpl.
           rewrite Nat.add_0_r. auto.
        -- exists (m :: pre), m', post, (e0 :: errs). simpl.
           rewrite Ec, Er, Hre, <- app_assoc, Nat.add_succ_r. auto.
      * assert (e0 = e /\ att = (attempts ++ [m])%list) as [-> ->].
        { destruct (on_fatal pol); destruct H as [H|H]; inversion H; auto. }
        exists [], m, ms, []. simpl. rewrite Nat.add_0_r.
        repeat split; auto. congruence.
Qed.

End LoopFacts.

(** X1: in every handler the identifiers the provider is called with
    are an initial segment of the candidate list: candidates are tried
    in order, none is skipped or tried twice, and there are at most as
    many calls as candidates. *)
Theorem attempts_are_prefix_of_candidates {R : Type} (pol : Policy)
    (call : nat -> string -> Outcome R) (models : list string) :
  (exists rest, models = (attempts_of (invoke pol call models) ++ rest)%list) /\
  (length (attempts_of (invoke pol call models)) <= length models)%nat.
Proof.
  destruct (tryModels_attempts_prefix pol call models 0 None []) as [rest E].
  simpl in E. split; [now exists rest|].
  unfold invoke. rewrite E at 2. rewrite length_app. lia.
Qed.

(** X2: a result the loop ends with is what the provider returned to the
    last call made; the calls before it all failed with errors the
    handler retries, and [lastError] is the last of those errors. *)
Theorem result_comes_from_last_call {R : Type} (pol : Policy)
    (call : nat -> string -> Outcome R) (models att : list string)
    (r : R) (le : option ApiError) :
  invoke pol call models = Finished (Some r) le att ->
  exists pre m post errs,
    models = (pre ++ m :: post)%list /\
    att = (pre ++ [m])%list /\
    retried_errors pol call 0 pre = Some errs /\
    call (length pre) m = Success r /\
    le = last_error errs None.
Proof.
  intros H. apply tryModels_result_inv in H.
  destruct H as (pre & m & post & errs & H1 & H2 & H3 & H4 & H5).
  exists pre, m, post, errs. auto.
Qed.

Lemma result_comes_from_last_call_witness :
  let call := fun (k : nat) (_ : string) =>
                if (k =? 0)%nat
                then Failure (mkError (Some 503) "The model is overloaded")
                else Success "ok" in
  exists pre m post errs,
    ["gemini-1.5-flash"; "gemini-1.5-pro"; "gemini-pro"] = (pre ++ m :: post)%list /\
    ["gemini-1.5-flash"; "gemini-1.5-pro"] = (pre ++ [m])%list /\
    retried_errors describe_policy call 0 pre = Some errs /\
    call (length pre) m = Success "ok" /\
    Some (mkError (Some 503) "The model is overloaded") = last_error errs None.
Proof.
  intros call.
  apply (result_comes_from_last_call describe_policy call
           ["gemini-1.5-flash"; "gemini-1.5-pro"; "gemini-pro"]).
  reflexivity.
Defined.

(** X3: the error a loop ends with, kept in [lastError] or thrown, is
    the error of the last call made, and every call before it failed
    with a retried error; if that last error is itself a retried one,
    the candidate list was exhausted. *)
Theorem reported_error_is_last_failure {R : Type} (pol : Policy)
    (call : nat -> string -> Outcome R) (models att : list string)
    (e : ApiError) :
  invoke pol call models = Finished None (Some e) att \/
  invoke pol call models = Threw e att ->
  exists pre m post errs,
    models = (pre ++ m :: post)%list /\
    att = (pre ++ [m])%list /\
    retried_errors pol call 0 pre = Some errs /\
    call (length pre) m = Failure e /\
    (retryable pol e = true -> post = []).
Proof.
  intros H. apply tryModels_error_inv in H.
  destruct H as [(_ & H & _)|H]; [discriminate|exact H].
Qed.

Lemma reported_error_is_last_failure_witness :
  let e503 := mkError (Some 503) "The model is overloaded" in
  let e403 := mkError (Some 403) "Forbidden" in
  let call := fun (k : nat) (_ : string) =>
                if (k =? 0)%nat then @Failure unit e503 else Failure e403 in
  exists pre m post errs,
    ["a"; "b"; "c"] = (pre ++ m :: post)%list /\
    ["a"; "b"] = (pre ++ [m])%list /\
    retried_errors generate_policy call 0 pre = Some errs /\
    call (length pre) m = Failure e403 /\
    (retryable generate_policy e403 = true -> post = []).
Proof.
  intros e503 e403 call.
  apply (reported_error_is_last_failure generate_policy call ["a"; "b"; "c"]).
  right. reflexivity.
Defined.

Lemma invoke_no_error_inv {R : Type} (pol : Policy)
    (call : nat -> string -> Outcome R) (models att : list string) :
  invoke pol call models = Finished None None att ->
  models = [] /\ att = [].
Proof.
  unfold invoke. destruct models as [|m ms]; simpl.
  - intros H. now inversion H.
  - destruct (call 0%nat m) as [r|e] eqn:Ec; [discriminate|].
    destruct (retryable pol e) eqn:Er.
    + intros H. exfalso.
      assert (forall k ms' le e' att0,
                 tryModels pol call k ms' (Some e') att0 <> Finished None le att
                 \/ le <> None) as Hgen.
      { clear. intros k ms'. revert k.
        induction ms' as [|x xs IH]; intros k le e' att0; simpl.
        - destruct le; [right; discriminate|left; discriminate].
        - destruct (call k x); [left; discriminate|].
          destruct (retryable pol e).
          + apply IH.
          + destruct le; [right; discriminate|].
            left. destruct (on_fatal pol); discriminate. }
      destruct (Hgen 1%nat ms None e [m]) as [Hn|Hn]; congruence.
    + destruct (on_fatal pol); discriminate.
Qed.

(** X4: with at least one candidate, a loop never ends with neither a
    result nor an error: whenever it ends without a result, [lastError]
    holds the error of a provider call and is not [null]. *)
Theorem some_candidate_gives_result_or_error {R : Type} (pol : Policy)
    (call : nat -> string -> Outcome R) (models : list string) :
  models <> [] ->
  forall att, invoke pol call models <> Finished None None att.
Proof.
  intros Hne att H. apply invoke_no_error_inv in H. tauto.
Qed.

Lemma some_candidate_gives_result_or_error_witness :
  invoke generate_policy
    (fun _ _ => @Failure unit (mkError (Some 503) "The model is overloaded"))
    ["gemini-1.5-flash"]
  <> Finished None None ["gemini-1.5-flash"].
Proof.
  apply (some_candidate_gives_result_or_error generate_policy
           (fun _ _ => @Failure unit (mkError (Some 503) "The model is overloaded"))
           ["gemini-1.5-flash"]).
  discriminate.
Defined.

(** X5: a loop that leaves its [catch] block by [break] never throws:
    the loops of [api/describe], [api/tts] and [api/analyze] always end
    in the code after the loop, never in the outer [catch] of their
    handler. *)
Theorem break_loops_never_throw {R : Type} (pol : Policy)
    (call : nat -> string -> Outcome R) (models : list string) :
  on_fatal pol = Break ->
  exists result lastError attempts,
    invoke pol call models = Finished result lastError attempts.
Proof.
  intros Hb. unfold invoke.
  generalize 0%nat (@None ApiError) (@nil string).
  induction models as [|m ms IH]; intros k le att; simpl.
  - eauto.
  - destruct (call k m) as [r|e]; [eauto|].
    destruct (retryable pol e); [apply IH|].
    rewrite Hb. eauto.
Qed.

Lemma break_loops_never_throw_witness :
  exists result lastError attempts,
    invoke describe_policy
      (fun _ _ => @Failure unit (mkError (Some 401) "API key not valid"))
      ["a"; "b"]
    = Finished result lastError attempts.
Proof.
  apply (break_loops_never_throw describe_policy
           (fun _ _ => @Failure unit (mkError (Some 401) "API key not valid"))
           ["a"; "b"]).
  reflexivity.
Defined.

(** ** What the handlers answer after their loops *)

Section HandlerFacts.

Import Handlers.

Lemma append_not_empty (a b : string) :
  a <> EmptyString -> a ++ b <> EmptyString.
Proof. destruct a as [|c a]; [congruence|]. rewrite append_String. discriminate. Qed.

Lemma or_else_not_empty (a d : string) : a <> EmptyString -> or_else a d = a.
Proof. intros H. unfold or_else. now rewrite (proj2 (String.eqb_neq a EmptyString) H). Qed.

Lemma generate_terminal_message_not_empty (models : list string)
    (lastError : option ApiError) :
  generate_terminal_message models lastError <> EmptyString.
Proof.
  unfold generate_terminal_message.
  destruct (status_is lastError 503); [apply append_not_empty; discriminate|].
  destruct (status_is lastError 404); [apply append_not_empty; discriminate|].
  destruct (status_is lastError 401); [discriminate|].
  destruct (status_is lastError 429); [discriminate|].
  apply append_not_empty; discriminate.
Qed.

Lemma status_is_false_of_not (e : ApiError) (c : Z) :
  status e <> Some c -> status_is (Some e) c = false.
Proof.
  intros H. destruct (status_is (Some e) c) eqn:E; [|reflexivity].
  apply status_is_Some in E. contradiction.
Qed.

End HandlerFacts.

(** X6: in [api/describe] a provider error that is not retried (any
    status other than 503, 429, 404 and 400: a 401, a 403, a 500, an
    error without status) ends the request with HTTP 500 whose [error]
    is the provider's message; the 401 and 429 answers of the handler's
    outer [catch] are not used for it. *)
Theorem describe_fatal_error_answers_500 {R : Type}
    (call : nat -> string -> Outcome R) (pre post : list string) (m : string)
    (errs : list ApiError) (e : ApiError) :
  retried_errors describe_policy call 0 pre = Some errs ->
  call (length pre) m = Failure e ->
  retryable describe_policy e = false ->
  describe_invoke call (pre ++ m :: post) =
  inr (mkResponse 500 (or_else (message e) "Unknown error occurred")).
Proof.
  intros Hpre Hcall Hr. unfold describe_invoke.
  rewrite (invoke_fatal_after_retries _ _ _ _ _ _ _ Hpre Hcall Hr).
  cbn [on_fatal describe_policy].
  unfold describe_policy in Hr; cbn [retryable] in Hr.
  rewrite !orb_false_iff in Hr. destruct Hr as [[[H503 H429] H404] _].
  unfold describe_terminal_response. now rewrite H429, H503, H404.
Qed.

Lemma describe_fatal_error_answers_500_witness :
  describe_invoke
    (fun (k : nat) (_ : string) =>
       if (k =? 0)%nat
       then Failure (mkError (Some 503) "The model is overloaded")
       else @Failure unit (mkError (Some 401) "API key not valid"))
    ["gemini-1.5-flash"; "gemini-1.5-pro"; "gemini-pro"]
  = inr (mkResponse 500 "API key not valid").
Proof.
  apply (describe_fatal_error_answers_500
           (fun (k : nat) (_ : string) =>
              if (k =? 0)%nat
              then Failure (mkError (Some 503) "The model is overloaded")
              else @Failure unit (mkError (Some 401) "API key not valid"))
           ["gemini-1.5-flash"] ["gemini-pro"] "gemini-1.5-pro"
           [mkError (Some 503) "The model is overloaded"]
           (mkError (Some 401) "API key not valid"));
    reflexivity.
Defined.

(** X7: in [api/generate] a provider error that is not retried reaches
    the outer [catch] as it is: when its status is one that a response
    with a body can carry (200 to 599, and not 204, 205 or 304), the
    answer has that status as HTTP status and as [statusCode], and the
    provider's message as [details]. *)
Theorem generate_fatal_error_keeps_status {R : Type}
    (call : nat -> string -> Outcome R) (pre post : list string) (m : string)
    (errs : list ApiError) (e : ApiError) (s : Z) :
  retried_errors generate_policy call 0 pre = Some errs ->
  call (length pre) m = Failure e ->
  retryable generate_policy e = false ->
  status e = Some s ->
  200 <= s <= 599 ->
  s <> 204 -> s <> 205 -> s <> 304 ->
  Handlers.generate_failure call (pre ++ m :: post) =
  Handlers.Answers
    (Handlers.mkGenerateFailure s "Failed to generate fitness plan"
       (or_else (message e) "Unknown error occurred") (Some s)).
Proof.
  intros Hpre Hcall Hr Hs Hrange H204 H205 H304.
  assert (s <> 0) as Hnz by lia.
  unfold Handlers.generate_failure, generate_invoke.
  rewrite (invoke_fatal_after_retries _ _ _ _ _ _ _ Hpre Hcall Hr).
  cbn [on_fatal generate_policy].
  unfold Handlers.generate_catch, Handlers.truthy_status. rewrite Hs.
  rewrite (proj2 (Z.eqb_neq s 0) Hnz). cbv zeta.
  assert (Handlers.response_status_accepted s = true) as ->; [|reflexivity].
  unfold Handlers.response_status_accepted.
  rewrite (proj2 (Z.leb_le 200 s)), (proj2 (Z.leb_le s 599)) by lia.
  now rewrite (proj2 (Z.eqb_neq s 204) H204), (proj2 (Z.eqb_neq s 205) H205),
    (proj2 (Z.eqb_neq s 304) H304).
Qed.

Lemma generate_fatal_error_keeps_status_witness :
  Handlers.generate_failure
    (fun (_ : nat) (_ : string) =>
       @Failure unit (mkError (Some 401) "API key not valid"))
    ["a"; "b"]
  = Handlers.Answers
      (Handlers.mkGenerateFailure 401 "Failed to generate fitness plan"
         "API key not valid" (Some 401)).
Proof.
  apply (generate_fatal_error_keeps_status
           (fun (_ : nat) (_ : string) =>
              @Failure unit (mkError (Some 401) "API key not valid"))
           [] ["b"] "a" [] (mkError (Some 401) "API key not valid") 401);
    [reflexivity | reflexivity | reflexivity | reflexivity | lia
    | discriminate | discriminate | discriminate].
Defined.

(** A status that no response with a body can carry: the outer [catch]
    of [api/generate] throws instead of answering. *)
Example generate_catch_rejects_204 :
  Handlers.generate_failure
    (fun (_ : nat) (_ : string) => @Failure unit (mkError (Some 204) "No Content"))
    ["a"; "b"]
  = Handlers.Rejects.
Proof. reflexivity. Qed.

(** X8: when every candidate of [api/generate] fails with a retried
    error, the answer is HTTP 500 without [statusCode], whatever the
    provider's statuses were (503 included); its [details] is the
    terminal message. *)
Theorem generate_exhausted_answers_500 {R : Type}
    (call : nat -> string -> Outcome R) (models : list string)
    (errs : list ApiError) :
  retried_errors generate_policy call 0 models = Some errs ->
  Handlers.generate_failure call models =
  Handlers.Answers
    (Handlers.mkGenerateFailure 500 "Failed to generate fitness plan"
       (generate_terminal_message models (last_error errs None)) None).
Proof.
  intros Hall. unfold Handlers.generate_failure, generate_invoke.
  rewrite (invoke_all_retried _ _ _ _ Hall).
  unfold Handlers.generate_catch, Handlers.truthy_status. cbn [status message].
  cbv zeta.
  change (Handlers.response_status_accepted 500) with true. cbv iota.
  now rewrite (or_else_not_empty _ _ (generate_terminal_message_not_empty _ _)).
Qed.

Lemma generate_exhausted_answers_500_witness :
  let e := mkError (Some 503) "The model is overloaded" in
  let models := ["gemini-1.5-flash"; "gemini-1.5-pro"] in
  Handlers.generate_failure (fun (_ : nat) (_ : string) => @Failure unit e) models
  = Handlers.Answers
      (Handlers.mkGenerateFailure 500 "Failed to generate fitness plan"
         (generate_terminal_message models (last_error [e; e] None)) None).
Proof.
  intros e models.
  apply (generate_exhausted_answers_500
           (fun (_ : nat) (_ : string) => @Failure unit e) models [e; e]).
  reflexivity.
Defined.

(** X9: in [api/analyze], when the loop ends on an error whose message
    mentions none of "API key", "not found" and "safety", the HTTP status
    of the answer is the provider's status when that is 503, 404, 401,
    429 or 400, and 500 otherwise. *)
Theorem analyze_answer_mirrors_status {R : Type}
    (call : nat -> string -> Outcome R) (models att : list string)
    (e : ApiError) :
  invoke Handlers.analyze_policy call models = Finished None (Some e) att ->
  Handlers.message_includes e "API key" = false ->
  Handlers.message_includes e "not found" = false ->
  Handlers.message_includes e "safety" = false ->
  exists resp,
    Handlers.analyze_invoke call models = inr resp /\
    code resp =
      match status e with
      | Some s =>
          if (s =? 503) || (s =? 404) || (s =? 401) || (s =? 429) || (s =? 400)
          then s else 500
      | None => 500
      end.
Proof.
  intros Hinv Hk Hn Hs. unfold Handlers.analyze_invoke. rewrite Hinv.
  eexists. split; [reflexivity|].
  unfold Handlers.analyze_terminal_response. rewrite Hk, Hn, Hs.
  unfold status_is. destruct e as [[s|] msg]; cbn [status]; [|reflexivity].
  destruct (s =? 503) eqn:E1; [apply Z.eqb_eq in E1; now subst|].
  destruct (s =? 404) eqn:E2; [apply Z.eqb_eq in E2; now subst|].
  destruct (s =? 401) eqn:E3; [apply Z.eqb_eq in E3; now subst|].
  destruct (s =? 429) eqn:E4; [apply Z.eqb_eq in E4; now subst|].
  destruct (s =? 400) eqn:E5; [apply Z.eqb_eq in E5; now subst|].
  reflexivity.
Qed.

Lemma analyze_answer_mirrors_status_witness :
  exists resp,
    Handlers.analyze_invoke
      (fun (_ : nat) (_ : string) =>
         @Failure unit (mkError (Some 401) "Unauthorized"))
      ["a"; "b"] = inr resp /\
    code resp = 401.
Proof.
  apply (analyze_answer_mirrors_status
           (fun (_ : nat) (_ : string) =>
              @Failure unit (mkError (Some 401) "Unauthorized"))
           ["a"; "b"] ["a"] (mkError (Some 401) "Unauthorized"));
    reflexivity.
Defined.

(** * Further properties of the model resolver *)

Section ResolverOrderFacts.

Import ResolverOrder.

Lemma filter_filter_and {A : Type} (p q : A -> bool) (l : list A) :
  List.filter q (List.filter p l) = List.filter (fun x => p x && q x) l.
Proof.
  induction l as [|x l IH]; [reflexivity|]. simpl.
  destruct (p x); simpl; [destruct (q x)|]; now rewrite IH.
Qed.

Lemma In_grouped {A : Type} (f : A -> nat) (ks : list nat) (l : list A) (x : A) :
  In x (grouped f ks l) <-> In x l /\ In (f x) ks.
Proof.
  unfold grouped. rewrite in_flat_map. split.
  - intros (k & Hk & Hx). apply filter_In in Hx. destruct Hx as [Hx Hf].
    apply Nat.eqb_eq in Hf. subst. tauto.
  - intros [Hx Hk]. exists (f x). split; [exact Hk|].
    apply filter_In. split; [exact Hx|apply Nat.eqb_refl].
Qed.

Lemma NoDup_grouped {A : Type} (f : A -> nat) (ks : list nat) (l : list A) :
  List.NoDup l -> List.NoDup ks -> List.NoDup (grouped f ks l).
Proof.
  intros Hl. induction ks as [|k ks IH]; intros Hks; [constructor|].
  change (grouped f (k :: ks) l)
    with (List.filter (fun x => (f x =? k)%nat) l ++ grouped f ks l)%list.
  inversion Hks as [|? ? Hk Hks']; subst.
  apply List.NoDup_app.
  - now apply List.NoDup_filter.
  - now apply IH.
  - intros x Hx Hx'.
    apply filter_In in Hx. destruct Hx as [_ Hf]. apply Nat.eqb_eq in Hf.
    apply In_grouped in Hx'. destruct Hx' as [_ Hin]. subst. contradiction.
Qed.

Lemma ordered_by_app {A : Type} (f : A -> nat) (a b : list A) :
  ordered_by f a -> ordered_by f b ->
  (forall x y, In x a -> In y b -> (f x <= f y)%nat) ->
  ordered_by f (a ++ b).
Proof.
  intros Ha Hb Hab i j x y Hij Hi Hj.
  apply lookup_app_Some in Hi, Hj.
  destruct Hi as [Hi|[Hil Hi]], Hj as [Hj|[Hjl Hj]].
  - eapply Ha; eauto.
  - apply Hab; apply list_elem_of_In; eapply list_elem_of_lookup_2; eauto.
  - apply lookup_lt_Some in Hj. lia.
  - eapply (Hb (i - length a)%nat (j - length a)%nat); eauto. lia.
Qed.

Lemma ordered_by_grouped {A : Type} (f : A -> nat) (ks : list nat) (l : list A) :
  StronglySorted lt ks -> ordered_by f (grouped f ks l).
Proof.
  induction ks as [|k ks IH]; intros Hks.
  - intros i j x y _ Hi. discriminate.
  - change (grouped f (k :: ks) l)
      with (List.filter (fun x => (f x =? k)%nat) l ++ grouped f ks l)%list.
    inversion Hks as [|? ? Hks' Hall]; subst.
    apply ordered_by_app; [|now apply IH|].
    + intros i j x y _ Hi Hj.
      apply list_elem_of_lookup_2, list_elem_of_In, filter_In in Hi, Hj.
      destruct Hi as [_ Hi], Hj as [_ Hj].
      apply Nat.eqb_eq in Hi, Hj. lia.
    + intros x y Hx Hy. apply filter_In in Hx. destruct Hx as [_ Hx].
      apply Nat.eqb_eq in Hx. apply In_grouped in Hy. destruct Hy as [_ Hy].
      rewrite Forall_forall in Hall. apply list_elem_of_In, Hall in Hy. lia.
Qed.

Lemma gemma_is_not_gemini (m : string) :
  startsWith m "gemma" = true -> startsWith m "gemini" = false.
Proof.
  unfold startsWith. intros H. destruct (prefix_inv _ _ H) as [r ->].
  reflexivity.
Qed.

(** Each of the six concatenated lists holds the identifiers of one
    bucket. *)
Lemma bucket_filters (m : string) :
  (is_stable m && is_geminiFlash m = (bucket m =? 0)%nat) /\
  (is_stable m && is_geminiPro m = (bucket m =? 1)%nat) /\
  (is_stable m && is_otherGemini m = (bucket m =? 2)%nat) /\
  (is_stable m && is_otherStable m = (bucket m =? 3)%nat) /\
  (is_stable m && is_gemma m = (bucket m =? 4)%nat) /\
  (is_preview m = (bucket m =? 5)%nat).
Proof.
  pose proof (gemma_is_not_gemini m) as Hg.
  pose proof (is_stable_not_preview m) as Hs.
  unfold bucket, is_geminiFlash, is_geminiPro, is_otherGemini, is_otherStable,
    is_gemma in *.
  destruct (is_preview m), (is_stable m), (startsWith m "gemini"),
    (startsWith m "gemma"), (includes m "flash"), (includes m "pro"),
    (has_version m); cbn; repeat split;
    try reflexivity; try (specialize (Hg eq_refl); discriminate);
    try (specialize (Hs eq_refl); discriminate).
Qed.

(** The answer on a non-empty listing, bucket by bucket. *)
Lemma getModelsToTry_grouped (l : list string) :
  l <> [] -> getModelsToTry l = grouped bucket [0; 1; 2; 3; 4; 5]%nat l.
Proof.
  intros Hne. unfold getModelsToTry.
  destruct l as [|x l]; [congruence|].
  replace (0 <? Z.of_nat (length (x :: l))) with true
    by (symmetry; apply Z.ltb_lt; simpl length; lia).
  cbv zeta. rewrite !filter_filter_and.
  unfold grouped. cbn [flat_map]. rewrite app_nil_r.
  repeat (f_equal; [apply List.filter_ext; intros m; apply bucket_filters|]).
  apply List.filter_ext; intros m; apply bucket_filters.
Qed.

End ResolverOrderFacts.

(** X10: the resolver tries no identifier twice: a listing without
    repetition gives a candidate list without repetition. *)
Theorem getModelsToTry_no_duplicates (l : list string) :
  List.NoDup l -> List.NoDup (getModelsToTry l).
Proof.
  intros Hl. destruct l as [|x l].
  - rewrite getModelsToTry_empty. unfold fallbackModels.
    repeat (constructor; [simpl; intuition discriminate|]). constructor.
  - rewrite getModelsToTry_grouped by discriminate.
    apply NoDup_grouped; [exact Hl|].
    repeat (constructor; [simpl; intuition discriminate|]). constructor.
Qed.

Lemma getModelsToTry_no_duplicates_witness :
  List.NoDup (getModelsToTry ["gemma-3-27b-it"; "gemini-1.5-pro"; "gemini-2.0-flash"]).
Proof.
  apply (getModelsToTry_no_duplicates
           ["gemma-3-27b-it"; "gemini-1.5-pro"; "gemini-2.0-flash"]).
  repeat (constructor; [simpl; intuition discriminate|]). constructor.
Defined.

(** X11: which identifiers of a non-empty listing are kept. An
    identifier is in the answer exactly when it is listed and either it
    is a preview identifier, or it does not contain "beta" and, if it
    starts with "gemini" and contains "flash" or "pro", it also contains
    one of the versions 2.5, 2.0, 1.5, 1.0. *)
Theorem getModelsToTry_keeps_exactly (l : list string) (m : string) :
  l <> [] ->
  (In m (getModelsToTry l) <->
   In m l /\
   (is_preview m = true \/
    (includes m "beta" = false /\
     (startsWith m "gemini" = true ->
      includes m "flash" || includes m "pro" = true ->
      has_version m = true)))).
Proof.
  intros Hne. rewrite (getModelsToTry_grouped l Hne), In_grouped.
  apply and_iff_compat_l.
  assert (In (ResolverOrder.bucket m) [0; 1; 2; 3; 4; 5]%nat
          <-> ResolverOrder.bucket m <> 6%nat) as ->.
  { unfold ResolverOrder.bucket.
    destruct (is_preview m), (negb (is_stable m)), (is_geminiFlash m),
      (is_geminiPro m), (is_otherGemini m), (is_otherStable m), (is_gemma m);
      simpl; intuition congruence. }
  pose proof (gemma_is_not_gemini m) as Hg.
  unfold ResolverOrder.bucket, is_stable, is_preview, is_geminiFlash,
    is_geminiPro, is_otherGemini, is_otherStable, is_gemma.
  destruct (includes m "preview"), (includes m "experimental"),
    (includes m "exp"), (includes m "beta"), (startsWith m "gemini"),
    (startsWith m "gemma"), (includes m "flash"), (includes m "pro"),
    (has_version m); cbn;
    try (specialize (Hg eq_refl); discriminate);
    intuition congruence.
Qed.

Lemma getModelsToTry_keeps_exactly_witness :
  ~ In "gemini-flash-latest"
       (getModelsToTry ["gemini-flash-latest"; "gemini-1.5-flash"]).
Proof.
  intros H.
  apply (getModelsToTry_keeps_exactly
           ["gemini-flash-latest"; "gemini-1.5-flash"] "gemini-flash-latest")
    in H; [|discriminate].
  destruct H as [_ [H|[_ H]]]; [discriminate H|].
  specialize (H eq_refl eq_refl). discriminate H.
Defined.

(** X12: the answer on a non-empty listing follows the priority of the
    buckets: Gemini flash models with a version, then Gemini pro models
    with a version, then other Gemini models, then models of other
    families, then Gemma models, then preview models. An identifier of a
    later bucket never stands before one of an earlier bucket. *)
Theorem getModelsToTry_follows_priority (l : list string) (i j : nat)
    (a b : string) :
  l <> [] ->
  (i < j)%nat ->
  getModelsToTry l !! i = Some a ->
  getModelsToTry l !! j = Some b ->
  (ResolverOrder.bucket a <= ResolverOrder.bucket b)%nat.
Proof.
  intros Hne Hij Hi Hj. rewrite (getModelsToTry_grouped l Hne) in Hi, Hj.
  eapply (ordered_by_grouped ResolverOrder.bucket [0; 1; 2; 3; 4; 5]%nat l);
    eauto.
  repeat (constructor; [|repeat constructor]). constructor.
Qed.

Lemma getModelsToTry_follows_priority_witness :
  (ResolverOrder.bucket "gemini-2.0-flash" <= ResolverOrder.bucket "gemma-3-27b-it")%nat.
Proof.
  apply (getModelsToTry_follows_priority
           ["gemma-3-27b-it"; "gemini-1.5-pro"; "gemini-2.0-flash"] 0 2
           "gemini-2.0-flash" "gemma-3-27b-it");
    [discriminate | lia | reflexivity | reflexivity].
Defined.

(** ** The listing and the resolver together *)

Section ListingFacts.

Import Listing.

Lemma filter_none {A : Type} (p : A -> bool) (l : list A) :
  (forall x, In x l -> p x = false) -> List.filter p l = [].
Proof.
  induction l as [|x l IH]; intros H; [reflexivity|]. simpl.
  rewrite (H x (or_introl eq_refl)). apply IH. intros y Hy. apply H. now right.
Qed.

Lemma defined_names_In (l : list (option string)) (names : list string) (m : string) :
  defined_names l = Some names -> In m names -> In (Some m) l.
Proof.
  revert names. induction l as [|[n|] l IH]; intros names H Hin; simpl in H.
  - inversion H; subst. contradiction.
  - destruct (defined_names l) as [ns|]; [|discriminate].
    inversion H; subst. destruct Hin as [->|Hin]; [now left|].
    right. eapply IH; eauto.
  - discriminate.
Qed.

Lemma defined_names_nil (l : list (option string)) :
  defined_names l = Some [] -> l = [].
Proof.
  destruct l as [|[n|] l]; simpl; [reflexivity| |discriminate].
  destruct (defined_names l); discriminate.
Qed.

Lemma defined_names_None (l : list (option string)) :
  defined_names l = None <-> In None l.
Proof.
  induction l as [|[n|] l IH]; simpl.
  - split; [discriminate|contradiction].
  - destruct (defined_names l).
    + split; [discriminate|]. intros [H|H]; [discriminate|].
      apply IH in H. discriminate.
    + split; [|reflexivity]. intros _. right. now apply IH.
  - split; [now left|reflexivity].
Qed.

Lemma substring_all (x : string) : String.substring 0 (String.length x) x = x.
Proof. induction x as [|c x IH]; simpl; [reflexivity|now rewrite IH]. Qed.

Lemma length_append (a b : string) :
  String.length (a ++ b) = (String.length a + String.length b)%nat.
Proof.
  induction a as [|c a IH]; [reflexivity|].
  rewrite append_String. simpl. now rewrite IH.
Qed.

Lemma substring_skip (p x : string) (n : nat) :
  String.substring (String.length p) n (p ++ x) = String.substring 0 n x.
Proof.
  induction p as [|c p IH]; [reflexivity|].
  rewrite append_String. simpl. exact IH.
Qed.

(** Removing a text from the front of what it was put in front of. *)
Lemma remove_first_prefix (pat x : string) : remove_first (pat ++ x) pat = x.
Proof.
  destruct (pat ++ x) as [|c r] eqn:E.
  - destruct pat; [|rewrite append_String in E; discriminate].
    rewrite append_nil_l in E. subst. reflexivity.
  - cbn [remove_first]. rewrite <- E, prefix_append, substring_skip, length_append.
    replace (String.length pat + String.length x - String.length pat)%nat
      with (String.length x) by lia.
    apply substring_all.
Qed.

(** A text in which the pattern does not occur is left as it is. *)
Lemma remove_first_absent (s pat : string) :
  includes s pat = false -> remove_first s pat = s.
Proof.
  induction s as [|c s IH]; cbn [includes remove_first];
    rewrite orb_false_iff; intros [Hp Hi]; rewrite Hp; [reflexivity|].
  now rewrite IH.
Qed.

End ListingFacts.

(** X13: when the listing cannot be used ([fetch] or the body throws,
    the response is not ok, it has no [models], or no listed model
    supports [generateContent]), [getModelsToTry] falls back to its
    hard-coded list. *)
Theorem unusable_listing_gives_fallback (r : Listing.ListResponse) :
  r = Listing.Throws \/
  (exists st, r = Listing.NotOk st) \/
  r = Listing.Listed None \/
  (exists models,
     r = Listing.Listed (Some models) /\
     forall info, In info models -> Listing.supports_generateContent info = false) ->
  Listing.getModelsToTry r = Some fallbackModels.
Proof.
  intros [->|[[st ->]|[->|(models & -> & Hnone)]]]; try reflexivity.
  unfold Listing.getModelsToTry, Listing.getAvailableModels.
  now rewrite (filter_none _ _ Hnone).
Qed.

Lemma unusable_listing_gives_fallback_witness :
  Listing.getModelsToTry
    (Listing.Listed
       (Some [Listing.mkModelInfo (Some "models/embedding-001")
                (Some ["embedContent"])]))
  = Some fallbackModels.
Proof.
  apply (unusable_listing_gives_fallback
           (Listing.Listed
              (Some [Listing.mkModelInfo (Some "models/embedding-001")
                       (Some ["embedContent"])]))).
  right. right. right. eexists. split; [reflexivity|].
  intros info [<-|[]]. reflexivity.
Defined.

(** X14: when the listing holds a model that supports [generateContent],
    every candidate is the name, without its first "models/", of a
    listed model that supports [generateContent]: neither the hard-coded
    identifiers nor models for other methods are tried. *)
Theorem candidates_come_from_listing (models : list Listing.ModelInfo)
    (out : list string) (m : string) :
  Listing.getModelsToTry (Listing.Listed (Some models)) = Some out ->
  (exists info, In info models /\ Listing.supports_generateContent info = true) ->
  In m out ->
  exists info,
    In info models /\
    Listing.supports_generateContent info = true /\
    Listing.stripped_name info = Some m.
Proof.
  unfold Listing.getModelsToTry, Listing.getAvailableModels.
  intros H (info0 & Hin0 & Hs0) Hm.
  destruct (Listing.defined_names _) as [names|] eqn:E; [|discriminate].
  inversion H; subst out. clear H.
  assert (names <> []) as Hne.
  { intros ->. apply defined_names_nil in E.
    apply map_eq_nil in E.
    assert (In info0 (List.filter Listing.supports_generateContent models))
      by (apply filter_In; tauto).
    rewrite E in H. contradiction. }
  apply (getModelsToTry_subset names m Hne) in Hm.
  apply (defined_names_In _ _ _ E), in_map_iff in Hm.
  destruct Hm as (info & Hname & Hin). apply filter_In in Hin.
  exists info. tauto.
Qed.

Lemma candidates_come_from_listing_witness :
  exists info,
    In info [Listing.mkModelInfo (Some "models/gemini-1.5-flash")
               (Some ["generateContent"; "countTokens"]);
             Listing.mkModelInfo (Some "models/embedding-001")
               (Some ["embedContent"])] /\
    Listing.supports_generateContent info = true /\
    Listing.stripped_name info = Some "gemini-1.5-flash".
Proof.
  apply (candidates_come_from_listing
           [Listing.mkModelInfo (Some "models/gemini-1.5-flash")
              (Some ["generateContent"; "countTokens"]);
            Listing.mkModelInfo (Some "models/embedding-001")
              (Some ["embedContent"])]
           ["gemini-1.5-flash"] "gemini-1.5-flash").
  - reflexivity.
  - eexists. split; [left; reflexivity|reflexivity].
  - left. reflexivity.
Defined.

(** X15: [getModelsToTry] throws exactly when the listing holds a model
    that supports [generateContent] and has no [name]: the undefined
    name reaches [m.includes] in the first filter. *)
Theorem getModelsToTry_throws_iff_nameless (r : Listing.ListResponse) :
  Listing.getModelsToTry r = None <->
  exists models info,
    r = Listing.Listed (Some models) /\
    In info models /\
    Listing.supports_generateContent info = true /\
    Listing.name info = None.
Proof.
  unfold Listing.getModelsToTry.
  destruct (Listing.defined_names (Listing.getAvailableModels r)) as [names|] eqn:E.
  - split; [discriminate|]. intros (models & info & -> & Hin & Hs & Hn).
    exfalso.
    assert (Listing.defined_names
              (Listing.getAvailableModels (Listing.Listed (Some models))) = None)
      as E'; [|congruence].
    apply defined_names_None. simpl. apply in_map_iff. exists info.
    split; [|apply filter_In; tauto].
    unfold Listing.stripped_name. now rewrite Hn.
  - split; [intros _|reflexivity].
    apply defined_names_None in E.
    destruct r as [| |[models|]]; simpl in E; try contradiction.
    apply in_map_iff in E. destruct E as (info & Hname & Hin).
    apply filter_In in Hin. exists models, info.
    repeat split; try tauto.
    unfold Listing.stripped_name in Hname.
    destruct (Listing.name info); [discriminate|reflexivity].
Qed.

(** X16: the name of a listed model loses its leading "models/":
    "models/x" becomes "x" for a non-empty "x"; a name in which
    "models/" does not occur is kept; and the name "models/" alone is
    kept too, because the empty result falls back to the name. *)
Theorem stripped_name_removes_prefix (info : Listing.ModelInfo) (n : string) :
  Listing.name info = Some n ->
  (forall x, n = "models/" ++ x -> x <> EmptyString ->
             Listing.stripped_name info = Some x) /\
  (includes n "models/" = false -> Listing.stripped_name info = Some n) /\
  (n = "models/" -> Listing.stripped_name info = Some "models/").
Proof.
  intros Hn. unfold Listing.stripped_name. rewrite Hn.
  split; [|split].
  - intros x -> Hx. rewrite remove_first_prefix.
    now rewrite (or_else_not_empty _ _ Hx).
  - intros Hno. rewrite (remove_first_absent _ _ Hno).
    unfold or_else. now destruct (String.eqb n EmptyString).
  - intros ->. reflexivity.
Qed.

Lemma stripped_name_removes_prefix_witness :
  Listing.stripped_name
    (Listing.mkModelInfo (Some "models/gemini-1.5-flash") (Some ["generateContent"]))
  = Some "gemini-1.5-flash".
Proof.
  refine (proj1 (stripped_name_removes_prefix
                   (Listing.mkModelInfo (Some "models/gemini-1.5-flash")
                      (Some ["generateContent"]))
                   "models/gemini-1.5-flash" eq_refl)
                "gemini-1.5-flash" eq_refl _).
  discriminate.
Defined.

(** * Further properties of the image cache *)

Section CacheMoreFacts.

Context {B : Browser}.
Implicit Types (name cached : string) (now : Z) (ls : Storage).

(** The cases of a read. *)
Lemma getCachedImage_cases name now ls :
  (getCachedImage name now ls = (None, ls)) \/
  (exists cached d,
     window_defined = true /\
     ls !! (CACHE_PREFIX ++ name) = Some cached /\
     cached <> EmptyString /\
     JSON_parse cached = JsonValue d /\
     ((version_mismatch d || expired now d = true /\
       getCachedImage name now ls = (None, delete (CACHE_PREFIX ++ name) ls)) \/
      (version_mismatch d = false /\ expired now d = false /\
       getCachedImage name now ls = (url d, ls)))).
Proof.
  unfold getCachedImage, removeItem.
  destruct window_defined eqn:Hw; [|now left]. simpl negb. cbv iota.
  destruct (ls !! (CACHE_PREFIX ++ name)) as [cached|] eqn:Hl; [|now left].
  destruct (String.eqb cached EmptyString) eqn:He; [now left|].
  apply String.eqb_neq in He.
  destruct (JSON_parse cached) as [| |d] eqn:Hp; [now left|now left|].
  right. exists cached, d. repeat (split; [assumption || reflexivity|]).
  destruct (version_mismatch d); [left; auto|].
  destruct (expired now d); [left; auto|right; auto].
Qed.

Lemma key_inj (a b : string) : CACHE_PREFIX ++ a = CACHE_PREFIX ++ b -> a = b.
Proof. unfold CACHE_PREFIX. intros H. now inversion H. Qed.

Lemma expired_mono (d : CachedImage) (now now' : Z) :
  now' <= now -> expired now d = false -> expired now' d = false.
Proof.
  unfold expired. destruct (timestamp d) as [t|]; [|reflexivity].
  rewrite !Z.gtb_ltb, !Z.ltb_ge. lia.
Qed.

Lemma cache_frame name (u key : string) now ls :
  key <> CACHE_PREFIX ++ name ->
  (getCachedImage name now ls).2 !! key = ls !! key /\
  setCachedImage name u now ls !! key = ls !! key /\
  clearCachedImage name ls !! key = ls !! key.
Proof.
  intros Hne. split; [|split].
  - destruct (getCachedImage_cases name now ls) as
      [E|(cached & d & _ & _ & _ & _ & [[_ E]|(_ & _ & E)])];
      rewrite E; cbn [snd]; try reflexivity.
    now apply lookup_delete_ne.
  - unfold setCachedImage, setItem.
    destruct (negb window_defined); [reflexivity|].
    destruct (quota_ok _ _ _); [|reflexivity].
    now apply lookup_insert_ne.
  - unfold clearCachedImage, removeItem.
    destruct (negb window_defined); [reflexivity|].
    now apply lookup_delete_ne.
Qed.

End CacheMoreFacts.

(** X17: reading twice is the same as reading once: a second
    [getCachedImage] of the same name at the same time returns what the
    first returned and leaves the storage as the first left it. *)
Theorem getCachedImage_idempotent (B : Browser) (name : string) (now : Z)
    (ls : Storage) :
  getCachedImage name now (getCachedImage name now ls).2
  = getCachedImage name now ls.
Proof.
  destruct (getCachedImage_cases name now ls) as
    [E|(cached & d & Hw & Hl & Hne & Hp & [[Hst E]|(Hv & He & E)])];
    rewrite E; cbn [snd]; try exact E.
  apply getCachedImage_absent. apply lookup_delete_eq.
Qed.

(** X18: the cache functions touch one key only. Reading, writing or
    clearing the picture of [name] leaves every other key of the storage
    as it was, so the entries of other names and the keys of other code
    are not affected. *)
Theorem cache_touches_one_key (B : Browser) (name u key : string) (now : Z)
    (ls : Storage) :
  key <> CACHE_PREFIX ++ name ->
  (getCachedImage name now ls).2 !! key = ls !! key /\
  setCachedImage name u now ls !! key = ls !! key /\
  clearCachedImage name ls !! key = ls !! key.
Proof. apply cache_frame. Qed.

Lemma cache_touches_one_key_witness :
  let ls : Storage := {[ "theme" := "dark" ]} in
  (@getCachedImage MiniJson.browser "push-ups" 1700000000000 ls).2 !! "theme"
    = ls !! "theme" /\
  @setCachedImage MiniJson.browser "push-ups" "https://img.example/p.jpg"
    1700000000000 ls !! "theme" = ls !! "theme" /\
  @clearCachedImage MiniJson.browser "push-ups" ls !! "theme" = ls !! "theme".
Proof.
  intros ls.
  apply (cache_touches_one_key MiniJson.browser "push-ups"
           "https://img.example/p.jpg" "theme" 1700000000000 ls).
  discriminate.
Defined.

(** X19: names do not interfere: what [getCachedImage] returns for one
    name is the same before and after a picture is written, or the
    cache cleared, for another name. *)
Theorem other_names_unaffected (B : Browser) (name name' u : string)
    (now t : Z) (ls : Storage) :
  name' <> name ->
  (getCachedImage name' now (setCachedImage name u t ls)).1
    = (getCachedImage name' now ls).1 /\
  (getCachedImage name' now (clearCachedImage name ls)).1
    = (getCachedImage name' now ls).1.
Proof.
  intros Hne.
  assert (CACHE_PREFIX ++ name' <> CACHE_PREFIX ++ name) as Hk
    by (intros H; apply key_inj in H; contradiction).
  assert (forall ls1 ls2 : Storage,
             ls1 !! (CACHE_PREFIX ++ name') = ls2 !! (CACHE_PREFIX ++ name') ->
             (getCachedImage name' now ls1).1 = (getCachedImage name' now ls2).1)
    as Hdep.
  { intros ls1 ls2 E. unfold getCachedImage. rewrite E.
    destruct (negb window_defined); [reflexivity|].
    destruct (ls2 !! (CACHE_PREFIX ++ name')) as [c|]; [|reflexivity].
    destruct (String.eqb c EmptyString); [reflexivity|].
    destruct (JSON_parse c) as [| |d]; try reflexivity.
    destruct (version_mismatch d); [reflexivity|].
    destruct (expired now d); reflexivity. }
  split; apply Hdep.
  - apply (cache_frame name u _ t ls Hk).
  - apply (cache_frame name u _ t ls Hk).
Qed.

Lemma other_names_unaffected_witness :
  let ls := @setCachedImage MiniJson.browser "squats" "https://img.example/s.jpg"
              1700000000000 ∅ in
  (@getCachedImage MiniJson.browser "squats" 1700000000001
     (@setCachedImage MiniJson.browser "push-ups" "https://img.example/p.jpg"
        1700000000001 ls)).1
    = (@getCachedImage MiniJson.browser "squats" 1700000000001 ls).1 /\
  (@getCachedImage MiniJson.browser "squats" 1700000000001
     (@clearCachedImage MiniJson.browser "push-ups" ls)).1
    = (@getCachedImage MiniJson.browser "squats" 1700000000001 ls).1.
Proof.
  intros ls.
  apply (other_names_unaffected MiniJson.browser "push-ups" "squats"
           "https://img.example/p.jpg" 1700000000001 1700000000001 ls).
  discriminate.
Defined.

(** X20: how long a written picture is served. In a browser whose
    [setItem] succeeds and whose [JSON.parse] reads back what
    [JSON.stringify] wrote, after [setCachedImage(k, v)] at time [t0] a
    read at time [now] returns [v] and keeps the entry as long as
    [now - t0] is at most 7 days (also when [now] is before [t0]); after
    that the read returns nothing and removes the entry. *)
Theorem written_picture_served_for_ttl (B : Browser) (k v : string)
    (t0 now : Z) (ls : Storage) :
  window_defined = true ->
  quota_ok (CACHE_PREFIX ++ k) (JSON_stringify (fresh_entry v t0)) ls = true ->
  JSON_stringify (fresh_entry v t0) <> EmptyString ->
  JSON_parse (JSON_stringify (fresh_entry v t0)) = JsonValue (fresh_entry v t0) ->
  (now - t0 <= 604800000 ->
     getCachedImage k now (setCachedImage k v t0 ls)
       = (Some v, setCachedImage k v t0 ls)) /\
  (604800000 < now - t0 ->
     getCachedImage k now (setCachedImage k v t0 ls)
       = (None, delete (CACHE_PREFIX ++ k) ls)).
Proof.
  intros Hw Hq Hne Hp.
  assert (setCachedImage k v t0 ls
          = <[CACHE_PREFIX ++ k := JSON_stringify (fresh_entry v t0)]> ls) as E.
  { unfold setCachedImage, setItem. now rewrite Hw, Hq. }
  rewrite E.
  rewrite (getCachedImage_readable k now _ _ _ Hw (lookup_insert_eq _ _ _) Hne Hp).
  assert (version_mismatch (fresh_entry v t0) = false) as ->
    by (apply version_mismatch_false_iff; reflexivity).
  unfold expired. cbn [timestamp fresh_entry orb url].
  change CACHE_EXPIRY_MS with 604800000.
  split; intros Hage.
  - now rewrite Z.gtb_ltb, (proj2 (Z.ltb_ge _ _) Hage).
  - rewrite Z.gtb_ltb, (proj2 (Z.ltb_lt _ _) Hage).
    now rewrite delete_insert_eq.
Qed.

Lemma written_picture_served_for_ttl_witness :
  let t0 := 1700000000000 in
  @getCachedImage MiniJson.browser "push-ups" (t0 + 604800000)
    (@setCachedImage MiniJson.browser "push-ups" "https://img.example/p.jpg" t0 ∅)
  = (Some "https://img.example/p.jpg",
     @setCachedImage MiniJson.browser "push-ups" "https://img.example/p.jpg" t0 ∅).
Proof.
  intros t0.
  refine (proj1 (written_picture_served_for_ttl MiniJson.browser "push-ups"
                   "https://img.example/p.jpg" t0 (t0 + 604800000) ∅ _ _ _ _) _).
  - reflexivity.
  - reflexivity.
  - vm_compute. discriminate.
  - vm_compute. reflexivity.
  - vm_compute. discriminate.
Defined.

(** X21: a picture that is served now was served at every earlier time:
    when [getCachedImage] returns a url at time [now] it returns the
    same url, without changing the storage, at every time up to [now]. *)
Theorem served_now_served_before (B : Browser) (name u : string)
    (now now' : Z) (ls ls' : Storage) :
  getCachedImage name now ls = (Some u, ls') ->
  now' <= now ->
  getCachedImage name now' ls = (Some u, ls).
Proof.
  intros H Hle.
  destruct (getCachedImage_cases name now ls) as
    [E|(cached & d & Hw & Hl & Hne & Hp & [[_ E]|(Hv & He & E)])];
    rewrite E in H; inversion H; subst.
  rewrite (getCachedImage_readable name now' ls' cached d Hw Hl Hne Hp).
  now rewrite Hv, (expired_mono d now now' Hle He).
Qed.

Lemma served_now_served_before_witness :
  let t0 := 1700000000000 in
  let ls := @setCachedImage MiniJson.browser "push-ups"
              "https://img.example/p.jpg" t0 ∅ in
  @getCachedImage MiniJson.browser "push-ups" (t0 - 5000) ls
  = (Some "https://img.example/p.jpg", ls).
Proof.
  intros t0 ls.
  apply (served_now_served_before MiniJson.browser "push-ups"
           "https://img.example/p.jpg" (t0 + 1000) (t0 - 5000) ls ls).
  - vm_compute. reflexivity.
  - vm_compute. discriminate.
Defined.

(** X22: a url is only ever returned from an entry that is stored under
    the name, can be parsed, carries the current version and is not
    expired; and a read that returns a url does not change the storage. *)
Theorem served_url_comes_from_valid_entry (B : Browser) (name u : string)
    (now : Z) (ls ls' : Storage) :
  getCachedImage name now ls = (Some u, ls') ->
  ls' = ls /\
  exists cached d,
    ls !! (CACHE_PREFIX ++ name) = Some cached /\
    JSON_parse cached = JsonValue d /\
    version d = Some CACHE_VERSION /\
    expired now d = false /\
    url d = Some u.
Proof.
  intros H.
  destruct (getCachedImage_cases name now ls) as
    [E|(cached & d & Hw & Hl & Hne & Hp & [[_ E]|(Hv & He & E)])];
    rewrite E in H; inversion H; subst.
  split; [reflexivity|]. exists cached, d.
  repeat split; try assumption. now apply version_mismatch_false_iff.
Qed.

Lemma served_url_comes_from_valid_entry_witness :
  let t0 := 1700000000000 in
  let ls := @setCachedImage MiniJson.browser "push-ups"
              "https://img.example/p.jpg" t0 ∅ in
  ls = ls /\
  exists cached d,
    ls !! (CACHE_PREFIX ++ "push-ups") = Some cached /\
    @JSON_parse MiniJson.browser cached = JsonValue d /\
    version d = Some CACHE_VERSION /\
    expired (t0 + 1000) d = false /\
    url d = Some "https://img.example/p.jpg".
Proof.
  intros t0 ls.
  apply (served_url_comes_from_valid_entry MiniJson.browser "push-ups"
           "https://img.example/p.jpg" (t0 + 1000) ls ls).
  vm_compute. reflexivity.
Defined.

(** X23: after [clearCachedImage(name)] a read of that name returns
    nothing and finds the storage as the clearing left it, whatever was
    stored before: a valid entry, a stale one or an unreadable text. *)
Theorem cleared_name_is_missed (B : Browser) (name : string) (now : Z)
    (ls : Storage) :
  getCachedImage name now (clearCachedImage name ls)
  = (None, clearCachedImage name ls).
Proof.
  unfold clearCachedImage, removeItem.
  destruct window_defined eqn:Hw; simpl negb; cbv iota.
  - apply getCachedImage_absent. apply lookup_delete_eq.
  - unfold getCachedImage. now rewrite Hw.
Qed.

(** * The image handler *)

Section ImageFacts.

Import ImageRoute.

Lemma toInt32_range (z : Z) : - 2 ^ 31 <= toInt32 z < 2 ^ 31.
Proof.
  unfold toInt32.
  pose proof (Z.mod_pos_bound (z + 2 ^ 31) (2 ^ 32) eq_refl). lia.
Qed.

Lemma toInt32_id (z : Z) : - 2 ^ 31 <= z < 2 ^ 31 -> toInt32 z = z.
Proof.
  intros H. unfold toInt32. rewrite Z.mod_small by lia. lia.
Qed.

Lemma itemHash_range (units : list Z) : - 2 ^ 31 <= itemHash units < 2 ^ 31.
Proof.
  unfold itemHash.
  assert (forall acc, - 2 ^ 31 <= acc < 2 ^ 31 ->
                      - 2 ^ 31 <= fold_left hash_step units acc < 2 ^ 31) as H.
  { induction units as [|c units IH]; intros acc Hacc; [exact Hacc|].
    simpl. apply IH. apply toInt32_range. }
  apply H. lia.
Qed.

Lemma imageIndex_range (hash len : Z) :
  0 < len -> 0 <= imageIndex hash len < len.
Proof.
  intros Hlen. unfold imageIndex. apply Z.rem_bound_pos; lia.
Qed.

Lemma array_get_in_range {A : Type} (l : list A) (i : Z) :
  0 <= i < Z.of_nat (length l) -> exists x, array_get l i = Some x /\ In x l.
Proof.
  intros H. unfold array_get.
  rewrite (proj2 (Z.ltb_ge i 0)) by lia.
  destruct (nth_error l (Z.to_nat i)) as [x|] eqn:E.
  - exists x. split; [reflexivity|]. eapply nth_error_In; eauto.
  - apply nth_error_None in E. lia.
Qed.

Lemma truthy_Some (o : option string) (x : string) :
  truthy o = Some x <-> o = Some x /\ x <> EmptyString.
Proof.
  unfold truthy. destruct o as [s|]; [|split; [discriminate|intros [? _]; discriminate]].
  destruct (String.eqb s EmptyString) eqn:E.
  - apply String.eqb_eq in E. subst. split; [discriminate|].
    intros [H Hne]. inversion H; subst. contradiction.
  - apply String.eqb_neq in E. split.
    + intros H. inversion H; subst. auto.
    + intros [H _]. exact H.
Qed.

Lemma placeholder_defined (isMeal : bool) (units : list Z) :
  exists u,
    placeholder isMeal units = Some u /\
    In u (if isMeal then foodImages else fitnessImages).
Proof.
  unfold placeholder. apply array_get_in_range.
  apply imageIndex_range. destruct isMeal; reflexivity.
Qed.

Lemma placeholder_not_empty (isMeal : bool) (units : list Z) (u : string) :
  placeholder isMeal units = Some u -> u <> EmptyString.
Proof.
  intros H. destruct (placeholder_defined isMeal units) as (u' & E & Hin).
  rewrite E in H. inversion H; subst.
  destruct isMeal; simpl in Hin;
    repeat (destruct Hin as [<-|Hin]; [discriminate|]); contradiction.
Qed.

Lemma directMatch_not_empty (isMeal : bool) (lowerName key picture : string) :
  directMatch isMeal lowerName = Some (key, picture) -> picture <> EmptyString.
Proof.
  unfold directMatch. intros H. apply find_some in H. destruct H as [Hin _].
  destruct isMeal; simpl in Hin;
    repeat (destruct Hin as [E|Hin]; [inversion E; discriminate|]);
    contradiction.
Qed.

(** What the first two options leave: a truthy url comes with the
    provider that gave it. *)
Lemma tryOpenAI_truthy (openai : option OpenAIOutcome) (u p x : string)
    (o : option string) :
  tryOpenAI openai = (o, p) -> truthy o = Some x ->
  p = "openai" /\ openai = Some (OpenAIReturns (Some x)).
Proof.
  unfold tryOpenAI. intros H Ht.
  destruct openai as [[v|msg]|].
  - destruct (truthy v) as [y|] eqn:Ev.
    + inversion H; subst. apply truthy_Some in Ev. destruct Ev as [-> Hy].
      simpl in Ht. rewrite (proj2 (String.eqb_neq _ _) Hy) in Ht.
      inversion Ht; subst. auto.
    + inversion H; subst. discriminate.
  - inversion H; subst. discriminate.
  - inversion H; subst. discriminate.
Qed.

Lemma tryUnsplash_truthy (units : list Z) (lowerName : string) (isMeal key : bool)
    (unsplash : UnsplashOutcome) (before p x : string) (o : option string) :
  tryUnsplash units lowerName isMeal key unsplash before = (o, p) ->
  truthy o = Some x ->
  p = "unsplash" \/ p = "unsplash-curated".
Proof.
  unfold tryUnsplash. intros H Ht.
  destruct key.
  - destruct unsplash as [msg|st|[results|]];
      try (inversion H; subst; discriminate).
    destruct (0 <? Z.of_nat (length results));
      [|inversion H; subst; discriminate].
    destruct (array_get results _) as [[urls|]|];
      inversion H; subst; try discriminate. now left.
  - destruct (directMatch isMeal lowerName) as [[k v]|];
      inversion H; subst; [now right|discriminate].
Qed.

End ImageFacts.

(** X24: the hash of a name is a signed 32-bit integer, and the index
    taken from it lies within the array it selects from, whatever the
    name: [results[imageIndex]] and the themed placeholder are always
    defined. *)
Theorem image_index_in_range (units : list Z) (len : Z) (isMeal : bool) :
  0 < len ->
  - 2 ^ 31 <= ImageRoute.itemHash units < 2 ^ 31 /\
  0 <= ImageRoute.imageIndex (ImageRoute.itemHash units) len < len /\
  exists u,
    ImageRoute.placeholder isMeal units = Some u /\
    In u (if isMeal then ImageRoute.foodImages else ImageRoute.fitnessImages).
Proof.
  intros Hlen. split; [apply itemHash_range|].
  split; [now apply imageIndex_range|apply placeholder_defined].
Qed.

Lemma image_index_in_range_witness :
  0 <= ImageRoute.imageIndex
         (ImageRoute.itemHash (ImageRoute.units_of_ascii "Bulgarian Split Squats")) 10
    < 10.
Proof.
  apply (image_index_in_range
           (ImageRoute.units_of_ascii "Bulgarian Split Squats") 10 false).
  reflexivity.
Defined.

(** X25: [api/image] always answers with a picture: whatever OpenAI and
    Unsplash return or throw, the [url] of the answer is a non-empty
    string, and [provider] is one of "openai", "unsplash",
    "unsplash-curated" and "placeholder". *)
Theorem image_answer_always_has_url (units : list Z) (lowerName : string)
    (isMeal : bool) (openai : option ImageRoute.OpenAIOutcome)
    (unsplashApiKey : bool) (unsplash : ImageRoute.UnsplashOutcome) :
  let answer := ImageRoute.chooseImage units lowerName isMeal openai
                  unsplashApiKey unsplash in
  (exists u, ImageRoute.url answer = Some u /\ u <> EmptyString) /\
  In (ImageRoute.provider answer)
     ["openai"; "unsplash"; "unsplash-curated"; "placeholder"].
Proof.
  unfold ImageRoute.chooseImage.
  destruct (ImageRoute.tryOpenAI openai) as [u1 p1] eqn:E1.
  destruct (ImageRoute.truthy u1) as [x1|] eqn:T1.
  - rewrite T1. cbn.
    destruct (tryOpenAI_truthy _ EmptyString _ _ _ E1 T1) as [-> _].
    apply truthy_Some in T1. destruct T1 as [-> Hx].
    split; [eauto|]. simpl. tauto.
  - destruct (ImageRoute.tryUnsplash _ _ _ _ _ _) as [u2 p2] eqn:E2.
    destruct (ImageRoute.truthy u2) as [x2|] eqn:T2; cbn.
    + pose proof (tryUnsplash_truthy _ _ _ _ _ _ _ _ _ E2 T2) as Hp.
      apply truthy_Some in T2. destruct T2 as [-> Hx].
      split; [eauto|]. simpl. destruct Hp as [-> | ->]; tauto.
    + destruct (placeholder_defined isMeal units) as (u & E & _).
      rewrite E. split; [|simpl; tauto].
      exists u. split; [reflexivity|].
      eapply placeholder_not_empty; eauto.
Qed.

(** X26: a picture from OpenAI wins: when a client is configured and
    returns a non-empty url, that url is the answer, with provider
    "openai" and without the note, whatever Unsplash would give. *)
Theorem openai_picture_is_used (units : list Z) (lowerName u : string)
    (isMeal : bool) (unsplashApiKey : bool)
    (unsplash : ImageRoute.UnsplashOutcome) :
  u <> EmptyString ->
  ImageRoute.chooseImage units lowerName isMeal
    (Some (ImageRoute.OpenAIReturns (Some u))) unsplashApiKey unsplash
  = ImageRoute.mkImageAnswer (Some u) "openai" false.
Proof.
  intros Hu. unfold ImageRoute.chooseImage, ImageRoute.tryOpenAI.
  assert (ImageRoute.truthy (Some u) = Some u) as E
    by (apply truthy_Some; auto).
  rewrite E. cbv beta iota zeta. rewrite E. cbv beta iota zeta.
  rewrite E. reflexivity.
Qed.

Lemma openai_picture_is_used_witness :
  ImageRoute.chooseImage (ImageRoute.units_of_ascii "Squats") "squats" false
    (Some (ImageRoute.OpenAIReturns (Some "https://oai.example/1.png"))) true
    (ImageRoute.UnsplashNotOk 403)
  = ImageRoute.mkImageAnswer (Some "https://oai.example/1.png") "openai" false.
Proof.
  apply (openai_picture_is_used (ImageRoute.units_of_ascii "Squats") "squats"
           "https://oai.example/1.png" false true (ImageRoute.UnsplashNotOk 403)).
  discriminate.
Defined.

(** Without a picture from OpenAI and without an Unsplash access
    key, the answer is the curated picture of the first keyword of the
    map that occurs in the lower-cased name, and the themed placeholder
    chosen by the hash when no keyword occurs. *)
Theorem curated_or_placeholder (units : list Z) (lowerName : string)
    (isMeal : bool) (openai : option ImageRoute.OpenAIOutcome)
    (unsplash : ImageRoute.UnsplashOutcome) :
  (ImageRoute.tryOpenAI openai).1 = None ->
  ImageRoute.chooseImage units lowerName isMeal openai false unsplash =
  match ImageRoute.directMatch isMeal lowerName with
  | Some (_, picture) =>
      ImageRoute.mkImageAnswer (Some picture) "unsplash-curated" false
  | None =>
      ImageRoute.mkImageAnswer (ImageRoute.placeholder isMeal units)
        "placeholder" false
  end.
Proof.
  intros H. unfold ImageRoute.chooseImage.
  destruct (ImageRoute.tryOpenAI openai) as [u1 p1]. simpl in H. subst u1.
  cbn [ImageRoute.truthy]. unfold ImageRoute.tryUnsplash.
  destruct (ImageRoute.directMatch isMeal lowerName) as [[k v]|] eqn:E.
  - pose proof (directMatch_not_empty _ _ _ _ E) as Hv.
    assert (ImageRoute.truthy (Some v) = Some v) as ->
      by (apply truthy_Some; auto).
    reflexivity.
  - reflexivity.
Qed.

Lemma curated_or_placeholder_witness :
  ImageRoute.chooseImage (ImageRoute.units_of_ascii "Bench Press") "bench press"
    false None false (ImageRoute.UnsplashThrows EmptyString)
  = ImageRoute.mkImageAnswer
      (Some "https://images.unsplash.com/photo-1517836357463-d25dfeac3438?w=800&h=600&fit=crop&q=80")
      "unsplash-curated" false.
Proof.
  apply (curated_or_placeholder (ImageRoute.units_of_ascii "Bench Press")
           "bench press" false None (ImageRoute.UnsplashThrows EmptyString)).
  reflexivity.
Defined.

(** * The hook: loading through the cache *)

Section HookFacts.

Context {B : Browser}.
Variable trim : string -> string.

Lemma not_blank (name : string) :
  name <> EmptyString -> trim name <> EmptyString ->
  String.eqb name EmptyString || String.eqb (trim name) EmptyString = false.
Proof.
  intros H1 H2. apply orb_false_iff.
  split; now apply String.eqb_neq.
Qed.

Lemma failure_message_not_empty (m : string) :
  Hook.failure_message m <> EmptyString.
Proof.
  unfold Hook.failure_message, or_else.
  destruct (String.eqb m EmptyString) eqn:E; [discriminate|].
  now apply String.eqb_neq.
Qed.

(** A cached url is shown without a request. *)
Lemma fetchImage_hit (name u : string) (now later : Z)
    (resp : Hook.FetchOutcome) (st : Hook.State) (ls ls' : Storage) :
  name <> EmptyString ->
  trim name <> EmptyString ->
  getCachedImage (trim name) now ls = (Some u, ls') ->
  u <> EmptyString ->
  Hook.fetchImage trim name now later resp st ls =
  (Hook.mkState (Some u) false None (Some (trim name)), ls', false).
Proof.
  intros Hn Ht Hget Hu. unfold Hook.fetchImage.
  rewrite (not_blank name Hn Ht), Hget.
  now rewrite (proj2 (truthy_Some (Some u) u) (conj eq_refl Hu)).
Qed.

End HookFacts.

(** X27: a picture in the cache is shown without a request: when
    [getCachedImage] returns a non-empty url for the trimmed name,
    [fetchImage] sets that url, clears [loading] and [error], and does
    not call [/api/image]. *)
Theorem fetchImage_uses_cache (B : Browser) (trim : string -> string)
    (name u : string) (now later : Z) (resp : Hook.FetchOutcome)
    (st : Hook.State) (ls ls' : Storage) :
  name <> EmptyString ->
  trim name <> EmptyString ->
  getCachedImage (trim name) now ls = (Some u, ls') ->
  u <> EmptyString ->
  Hook.fetchImage trim name now later resp st ls =
  (Hook.mkState (Some u) false None (Some (trim name)), ls', false).
Proof. apply fetchImage_hit. Qed.

Lemma fetchImage_uses_cache_witness :
  let t0 := 1700000000000 in
  let ls := @setCachedImage MiniJson.browser "push-ups"
              "https://img.example/p.jpg" t0 ∅ in
  @Hook.fetchImage MiniJson.browser (fun s => s) "push-ups" (t0 + 1000)
    (t0 + 2000) (Hook.FetchThrows "offline")
    (Hook.mkState None false None None) ls
  = (Hook.mkState (Some "https://img.example/p.jpg") false None (Some "push-ups"),
     ls, false).
Proof.
  intros t0 ls.
  apply (fetchImage_uses_cache MiniJson.browser (fun s => s) "push-ups"
           "https://img.example/p.jpg" (t0 + 1000) (t0 + 2000)
           (Hook.FetchThrows "offline") (Hook.mkState None false None None)
           ls ls).
  - discriminate.
  - discriminate.
  - vm_compute. reflexivity.
  - discriminate.
Defined.

(** X28: a picture is requested once. In a browser whose [setItem]
    succeeds and whose [JSON.parse] reads back what [JSON.stringify]
    wrote, when [fetchImage] misses the cache and the request returns a
    non-empty [url], the url is shown and written to the cache, and a
    second [fetchImage] of the same name within 7 days of the write
    shows the same url without a request. *)
Theorem fetchImage_requests_once (B : Browser) (trim : string -> string)
    (name u : string) (iu : option string) (now later now2 later2 : Z)
    (resp2 : Hook.FetchOutcome) (st : Hook.State) (ls : Storage) :
  name <> EmptyString ->
  trim name <> EmptyString ->
  u <> EmptyString ->
  window_defined = true ->
  ImageRoute.truthy (getCachedImage (trim name) now ls).1 = None ->
  quota_ok (CACHE_PREFIX ++ trim name) (JSON_stringify (fresh_entry u later))
    (getCachedImage (trim name) now ls).2 = true ->
  JSON_stringify (fresh_entry u later) <> EmptyString ->
  JSON_parse (JSON_stringify (fresh_entry u later)) = JsonValue (fresh_entry u later) ->
  now2 - later <= CACHE_EXPIRY_MS ->
  exists ls1,
    Hook.fetchImage trim name now later (Hook.ResponseOk (Some u) iu) st ls
      = (Hook.mkState (Some u) false None (Some (trim name)), ls1, true) /\
    Hook.fetchImage trim name now2 later2 resp2
      (Hook.mkState (Some u) false None (Some (trim name))) ls1
      = (Hook.mkState (Some u) false None (Some (trim name)), ls1, false).
Proof.
  intros Hn Ht Hu Hw Hmiss Hq Hne Hp Hage.
  destruct (getCachedImage (trim name) now ls) as [c ls0] eqn:Hget.
  cbn [fst snd] in Hmiss, Hq.
  assert (ImageRoute.truthy (Some u) = Some u) as Hut
    by (apply truthy_Some; auto).
  exists (setCachedImage (trim name) u later ls0). split.
  - unfold Hook.fetchImage. rewrite (not_blank trim name Hn Ht), Hget, Hmiss.
    unfold ImageRoute.or_value. now rewrite Hut, Hut.
  - apply fetchImage_hit; try assumption.
    assert (setCachedImage (trim name) u later ls0
            = <[CACHE_PREFIX ++ trim name := JSON_stringify (fresh_entry u later)]> ls0)
      as E by (unfold setCachedImage, setItem; now rewrite Hw, Hq).
    rewrite E.
    rewrite (getCachedImage_readable (trim name) now2 _ _ _ Hw
               (lookup_insert_eq _ _ _) Hne Hp).
    assert (version_mismatch (fresh_entry u later) = false) as ->
      by (apply version_mismatch_false_iff; reflexivity).
    unfold expired. cbn [timestamp fresh_entry orb url].
    now rewrite Z.gtb_ltb, (proj2 (Z.ltb_ge _ _) Hage).
Qed.

Lemma fetchImage_requests_once_witness :
  let t0 := 1700000000000 in
  let shown := Hook.mkState (Some "https://img.example/p.jpg") false None
                 (Some "push-ups") in
  exists ls1,
    @Hook.fetchImage MiniJson.browser (fun s => s) "push-ups" t0 (t0 + 900)
      (Hook.ResponseOk (Some "https://img.example/p.jpg") None)
      (Hook.mkState None false None None) ∅
      = (shown, ls1, true) /\
    @Hook.fetchImage MiniJson.browser (fun s => s) "push-ups" (t0 + 86400000)
      (t0 + 86400900) (Hook.FetchThrows "offline") shown ls1
      = (shown, ls1, false).
Proof.
  intros t0 shown.
  apply (fetchImage_requests_once MiniJson.browser (fun s => s) "push-ups"
           "https://img.example/p.jpg" None t0 (t0 + 900) (t0 + 86400000)
           (t0 + 86400900) (Hook.FetchThrows "offline")
           (Hook.mkState None false None None) ∅).
  - discriminate.
  - discriminate.
  - discriminate.
  - reflexivity.
  - reflexivity.
  - reflexivity.
  - vm_compute. discriminate.
  - vm_compute. reflexivity.
  - vm_compute. discriminate.
Defined.

(** X29: after [fetchImage] of a name that is not blank, [loading] is
    off and the hook shows either a non-empty url and no error, or no
    url and a non-empty error message; when it shows an error, nothing
    was written to the cache. *)
Theorem fetchImage_ends_with_url_or_error (B : Browser)
    (trim : string -> string) (name : string) (now later : Z)
    (resp : Hook.FetchOutcome) (st : Hook.State) (ls : Storage) :
  name <> EmptyString ->
  trim name <> EmptyString ->
  let '(st', ls', _) := Hook.fetchImage trim name now later resp st ls in
  Hook.loading st' = false /\
  ((exists u, Hook.url st' = Some u /\ u <> EmptyString /\ Hook.error st' = None) \/
   (Hook.url st' = None /\
    (exists m, Hook.error st' = Some m /\ m <> EmptyString) /\
    ls' = (getCachedImage (trim name) now ls).2)).
Proof.
  intros Hn Ht. unfold Hook.fetchImage. rewrite (not_blank trim name Hn Ht).
  destruct (getCachedImage (trim name) now ls) as [c ls0].
  destruct (ImageRoute.truthy c) as [u|] eqn:Hc.
  - apply truthy_Some in Hc. destruct Hc as [_ Hu].
    cbn. split; [reflexivity|]. left. eauto.
  - destruct resp as [m|e|u iu].
    + cbn. split; [reflexivity|]. right.
      split; [reflexivity|]. split; [|reflexivity].
      eexists. split; [reflexivity|apply failure_message_not_empty].
    + cbn. split; [reflexivity|]. right.
      split; [reflexivity|]. split; [|reflexivity].
      eexists. split; [reflexivity|apply failure_message_not_empty].
    + destruct (ImageRoute.truthy (ImageRoute.or_value u iu)) as [x|] eqn:Hx.
      * apply truthy_Some in Hx. destruct Hx as [_ Hx].
        cbn. split; [reflexivity|]. left. eauto.
      * cbn. split; [reflexivity|]. right.
        split; [reflexivity|]. split; [|reflexivity].
        eexists. split; [reflexivity|discriminate].
Qed.

Lemma fetchImage_ends_with_url_or_error_witness :
  let '(st', ls', _) :=
    @Hook.fetchImage MiniJson.browser (fun s => s) "push-ups" 1700000000000
      1700000000900 (Hook.ResponseNotOk None)
      (Hook.mkState None true None None) ∅ in
  Hook.loading st' = false /\
  ((exists u, Hook.url st' = Some u /\ u <> EmptyString /\ Hook.error st' = None) \/
   (Hook.url st' = None /\
    (exists m, Hook.error st' = Some m /\ m <> EmptyString) /\
    ls' = (@getCachedImage MiniJson.browser "push-ups" 1700000000000 ∅).2)).
Proof.
  apply (fetchImage_ends_with_url_or_error MiniJson.browser (fun s => s)
           "push-ups" 1700000000000 1700000000900 (Hook.ResponseNotOk None)
           (Hook.mkState None true None None) ∅);
    discriminate.
Defined.
